(** * ELL nodes: the extremal-value node (ArgMax / ArgMin) and the filter-bank nodes

    A shallow embedding of [libraries/nodes/tcc/ExtremalValueNode.tcc] and of the
    declarations of [libraries/nodes/include/FilterBankNode.h], with the
    properties the specification states about them.

    Conventions.
    - [ValueType] is the template parameter of the node; its [operator<] is the
      class method [less].
    - [size_t] and [ptrdiff_t] positions are [nat]; an [int] is a [Z] in the
      range of a 32-bit two's complement integer, and every conversion to
      [int] the source writes is the explicit [static_cast_int].
    - Output buffers are shared between the node that owns them and the input
      ports that observe them: they live in one store keyed by port identity.
    - Undefined behaviour and out-of-range accesses are [None]; C++ exceptions
      are the left summand of a result. *)

From Stdlib Require Import ZArith.
From stdpp Require Import gmap strings list.

#[local] Set Warnings "-register-all".

Local Open Scope Z_scope.
Local Open Scope nat_scope.

(** ** The element type *)

(** [operator<] of the element type. *)
Class Less (T : Type) := less : T → T → bool.

(** The element types the reduction is meaningful for: [operator<] is a strict
    total order (integers; floating point without NaN). *)
Class StrictTotalOrder (T : Type) `{Less T} : Prop := {
  less_irrefl : ∀ a : T, less a a = false;
  less_trans : ∀ a b c : T, less a b = true → less b c = true → less a c = true;
  less_total : ∀ a b : T, less a b = false → less b a = false → a = b
}.

(** ** Conversions to [int] *)

Definition INT_MAX : Z := 2147483647.

(** [(int)x] and [static_cast<int>(x)]: the value modulo 2^32, read as a signed
    32-bit integer. A position is a [ptrdiff_t] or [size_t], wider than [int]
    on a 64-bit target, so the conversion can drop its upper bits. *)
Definition static_cast_int (z : Z) : Z :=
  ((z + 2147483648) mod 4294967296 - 2147483648)%Z.

(** ** Ports *)

Definition NodeId := nat.

(** An output port is identified by its owning node and its position in the
    list of outputs the node hands to [CompilableNode]. *)
Definition PortId : Type := NodeId * nat.

(** Modelled from the spec: [model::PortElements] is not among the sources. An
    input observes "a single contiguous buffer" or "an indirect composition of
    other ports' elements": a sequence of references, each to one element of
    an upstream output port. *)
Record PortElement := mkPortElement {
  ReferencedPort : PortId;
  GetIndex : nat
}.

Abbreviation PortElements := (list PortElement).

(** The [count] consecutive elements of port [p] from [start] on. *)
Definition port_range (p : PortId) (start count : nat) : PortElements :=
  mkPortElement p <$> seq start count.

Record InputPort := mkInputPort {
  in_name : string;
  GetPortElements : PortElements
}.

Record OutputPort := mkOutputPort {
  out_name : string;
  out_size : nat
}.

#[export] Instance PortElement_eq_dec : EqDecision PortElement.
Proof. solve_decision. Defined.
#[export] Instance InputPort_eq_dec : EqDecision InputPort.
Proof. solve_decision. Defined.
#[export] Instance OutputPort_eq_dec : EqDecision OutputPort.
Proof. solve_decision. Defined.

(** [Port::Size] of an input port. *)
Definition Size (p : InputPort) : nat := length (GetPortElements p).

(** [InputPort::GetInputElement(i)]; an index past the end is an error. *)
Definition GetInputElement (p : InputPort) (i : nat) : option PortElement :=
  GetPortElements p !! i.

(** ** The node *)

(** [ExtremalValueNode<ValueType, max>]; the template flag is [IsMaxNode]. The
    outputs are registered as [{ &_val, &_argVal }]. *)
Record ExtremalValueNode := mkExtremalValueNode {
  GetId : NodeId;
  IsMaxNode : bool;
  input : InputPort;
  val : OutputPort;
  argVal : OutputPort
}.

Definition val_id (n : ExtremalValueNode) : PortId := (GetId n, 0).
Definition argVal_id (n : ExtremalValueNode) : PortId := (GetId n, 1).

(** The port names [inputPortName], [valPortName] and [argValPortName] are
    constants of [ExtremalValueNode.h], which is not among the sources: they
    are parameters of the development. *)
Class PortNames := {
  inputPortName : string;
  valPortName : string;
  argValPortName : string
}.

(** C++ exceptions a constructor or the compile pass can raise. *)
Inductive Exception :=
| scalarInputsExpected
| indexOutOfRange.

Definition result (A : Type) : Type := Exception + A.

(** ** Serialization *)

(** Modelled from the spec: [utilities::Archiver] and [utilities::Unarchiver]
    are not among the sources. The archive is "a generic keyed read/write
    contract": [archiver[name] << value] records the value under the name and
    [archiver[name] >> value] reads it back; a required name that is absent,
    or that holds a value of another kind, is fatal to the load. *)
Inductive ArchivedValue :=
| AInputPort (p : InputPort)
| AOutputPort (p : OutputPort).

Abbreviation Archive := (gmap string ArchivedValue).

Section Construction.
Context `{PortNames}.

(** [ExtremalValueNode(const model::PortElements<ValueType>& input)], for the
    node object [this] and the template flag [max]. The constructor only
    initialises the three ports; no statement of it throws. *)
Definition ExtremalValueNode_new (max : bool) (this : NodeId)
    (input : PortElements) : result ExtremalValueNode :=
  inr {| GetId := this;
         IsMaxNode := max;
         input := mkInputPort inputPortName input;
         val := mkOutputPort valPortName 1;
         argVal := mkOutputPort argValPortName 1 |}.

(** [ExtremalValueNode()]: the input port is bound to [{}]. *)
Definition ExtremalValueNode_default (max : bool) (this : NodeId)
    : result ExtremalValueNode :=
  inr {| GetId := this;
         IsMaxNode := max;
         input := mkInputPort inputPortName [];
         val := mkOutputPort valPortName 1;
         argVal := mkOutputPort argValPortName 1 |}.

Definition write_field (name : string) (v : ArchivedValue) (a : Archive) : Archive :=
  <[name := v]> a.

Definition read_InputPort (name : string) (a : Archive) : option InputPort :=
  match a !! name with
  | Some (AInputPort p) => Some p
  | _ => None
  end.

Definition read_OutputPort (name : string) (a : Archive) : option OutputPort :=
  match a !! name with
  | Some (AOutputPort p) => Some p
  | _ => None
  end.

(** Modelled from the spec: the base class [model::Node] is not among the
    sources; the spec lists the ports as the only persisted state of this
    node, so the base part records nothing and reads nothing. *)
Definition Node_WriteToArchive (n : ExtremalValueNode) (a : Archive) : Archive := a.

Definition Node_ReadFromArchive (a : Archive) (n : ExtremalValueNode)
    : option ExtremalValueNode := Some n.

(** [ExtremalValueNode::WriteToArchive]. *)
Definition WriteToArchive (n : ExtremalValueNode) (archiver : Archive) : Archive :=
  let archiver := Node_WriteToArchive n archiver in
  let archiver := write_field inputPortName (AInputPort (input n)) archiver in
  let archiver := write_field valPortName (AOutputPort (val n)) archiver in
  write_field argValPortName (AOutputPort (argVal n)) archiver.

(** [ExtremalValueNode::ReadFromArchive], on the node object [n]: the three
    ports are overwritten in place. *)
Definition ReadFromArchive (archiver : Archive) (n : ExtremalValueNode)
    : option ExtremalValueNode :=
  n ← Node_ReadFromArchive archiver n;
  _input ← read_InputPort inputPortName archiver;
  _val ← read_OutputPort valPortName archiver;
  _argVal ← read_OutputPort argValPortName archiver;
  Some {| GetId := GetId n; IsMaxNode := IsMaxNode n;
          input := _input; val := _val; argVal := _argVal |}.

(** ** Graph copy *)

(** Modelled from the spec: [model::ModelTransformer] is not among the
    sources. It holds the model under construction, the next free node
    identity, and "the port-remapping facility": the map from output ports of
    the original model to their images. *)
Record ModelTransformer := mkModelTransformer {
  newModel : list ExtremalValueNode;
  nextId : NodeId;
  portMap : gmap PortId PortId
}.

(** [transformer.TransformPortElements]: every referenced output port is
    replaced by its image; a port without image cannot be re-resolved. *)
Definition TransformPortElements (t : ModelTransformer) (elements : PortElements)
    : option PortElements :=
  mapM (λ e, p ← portMap t !! ReferencedPort e;
             Some (mkPortElement p (GetIndex e))) elements.

(** [transformer.AddNode<NodeType>(elements)]: constructs the node in the new
    model. *)
Definition AddNode (max : bool) (elements : PortElements) (t : ModelTransformer)
    : option (ExtremalValueNode * ModelTransformer) :=
  match ExtremalValueNode_new max (nextId t) elements with
  | inr newNode =>
      Some (newNode, mkModelTransformer (newModel t ++ [newNode]) (S (nextId t)) (portMap t))
  | inl _ => None
  end.

(** [transformer.MapNodeOutput(oldPort, newPort)]. *)
Definition MapNodeOutput (oldPort newPort : PortId) (t : ModelTransformer)
    : ModelTransformer :=
  mkModelTransformer (newModel t) (nextId t) (<[oldPort := newPort]> (portMap t)).

(** [ArgMinNode::Copy] ([max = false]) and [ArgMaxNode::Copy] ([max = true]):
    the two definitions of the source differ in the node type they add. *)
Definition Copy_as (max : bool) (this : ExtremalValueNode) (transformer : ModelTransformer)
    : option (ExtremalValueNode * ModelTransformer) :=
  newPortElements ← TransformPortElements transformer (GetPortElements (input this));
  '(newNode, transformer) ← AddNode max newPortElements transformer;
  let transformer := MapNodeOutput (val_id this) (val_id newNode) transformer in
  let transformer := MapNodeOutput (argVal_id this) (argVal_id newNode) transformer in
  Some (newNode, transformer).

Definition ArgMinNode_Copy := Copy_as false.
Definition ArgMaxNode_Copy := Copy_as true.

(** Virtual dispatch of [Copy]: an [ArgMaxNode] is the node with the flag set. *)
Definition Copy (this : ExtremalValueNode) (transformer : ModelTransformer)
    : option (ExtremalValueNode * ModelTransformer) :=
  if IsMaxNode this then ArgMaxNode_Copy this transformer
  else ArgMinNode_Copy this transformer.

End Construction.

(** ** Type names *)

(** The template arguments [GetTypeName] passes on: the element type, and the
    tag types [std::true_type] and [std::false_type]. *)
Inductive CppType :=
| ValueTypeArg (name : string)
| std_true_type
| std_false_type.

(** [utilities::GetCompositeTypeName] and [utilities::TypeName] are not among
    the sources: the name of a type, and the way a base name and the names of
    the template arguments make up a composite name, are parameters. *)
Class TypeNameFacility := {
  TypeName : CppType → string;
  compose_name : string → list string → string
}.

(** [utilities::GetCompositeTypeName<Types...>(baseType)]. *)
Definition GetCompositeTypeName `{TypeNameFacility} (Types : list CppType)
    (baseType : string) : string :=
  compose_name baseType (TypeName <$> Types).

(** [ExtremalValueNode<ValueType, max>::GetTypeName]. *)
Definition GetTypeName `{TypeNameFacility} (ValueType : CppType) (max : bool) : string :=
  if max then GetCompositeTypeName [ValueType; std_true_type] "ExtremalValueNode"
  else GetCompositeTypeName [ValueType; std_false_type] "ExtremalValueNode".

(** ** The native-function builder

    Modelled from the spec: the emitters library ([IRFunctionEmitter],
    [IRMapCompiler]) is not among the sources. The builder offers the
    primitives the spec lists: "declare a typed local variable, load/store,
    indexed element access, emit a counted loop with a body callback, emit a
    conditional with a body callback, and resolve a port's already-materialized
    native location". Each primitive appends one instruction to the function
    being built; the meaning of the instructions is [exec] below. *)

Inductive VariableType :=
| ElementType   (* the native type of ValueType *)
| Int32.

Module BinaryPredicateType.
Inductive t := greater | less.
End BinaryPredicateType.

(** A comparison of two values of the element type. *)
Inductive TypedComparison :=
| ElementComparison (p : BinaryPredicateType.t).

(** A handle to a native value. *)
Inductive LLVMValue :=
| Literal (z : Z)                           (* an [int] constant *)
| Temp (r : nat)                            (* the result of an instruction; a loop counter *)
| LocalVariable (x : nat)                     (* the address of a local variable *)
| PortVariable (p : PortId) (offset : nat). (* the location of a port's buffer, from [offset] on *)

Inductive Instr :=
| IVariable (x : nat) (type : VariableType) (name : string)
| ILoad (dst : nat) (ptr : LLVMValue)
| IStore (ptr : LLVMValue) (value : LLVMValue)
| IValueAt (dst : nat) (ptr : LLVMValue) (index : LLVMValue)
| ILoadPortElement (dst : nat) (e : PortElement)
| IIf (comparison : TypedComparison) (a b : LLVMValue) (body : list Instr)
| IFor (i : nat) (beginValue endValue increment : Z) (body : list Instr).

Record IRFunctionEmitter := mkIRFunctionEmitter {
  emitted : list Instr;
  nextTemp : nat
}.

(** An emission: it may throw, and it changes the function being built. *)
Definition Emit (A : Type) : Type :=
  IRFunctionEmitter → result A * IRFunctionEmitter.

Definition emit_ret {A} (a : A) : Emit A := λ f, (inr a, f).

Definition emit_bind {A B} (c : Emit A) (k : A → Emit B) : Emit B :=
  λ f, match c f with
       | (inr a, f') => k a f'
       | (inl e, f') => (inl e, f')
       end.

Definition throw {A} (e : Exception) : Emit A := λ f, (inl e, f).

#[export] Instance Emit_ret : MRet Emit := @emit_ret.
#[export] Instance Emit_bind : MBind Emit := λ A B k c, emit_bind c k.

Definition emit (i : Instr) : Emit unit :=
  λ f, (inr (), mkIRFunctionEmitter (emitted f ++ [i]) (nextTemp f)).

Definition fresh : Emit nat :=
  λ f, (inr (nextTemp f), mkIRFunctionEmitter (emitted f) (S (nextTemp f))).

(** The instructions a body callback emits, built in a block of their own. *)
Definition in_block (body : Emit unit) (wrap : list Instr → Instr) : Emit unit :=
  λ f, match body (mkIRFunctionEmitter [] (nextTemp f)) with
       | (inr _, b) =>
           (inr (), mkIRFunctionEmitter (emitted f ++ [wrap (emitted b)]) (nextTemp b))
       | (inl e, b) => (inl e, mkIRFunctionEmitter (emitted f) (nextTemp b))
       end.

Definition function_Literal (z : Z) : LLVMValue := Literal z.

Definition function_Variable (type : VariableType) (name : string) : Emit LLVMValue :=
  emit_bind fresh (λ x, emit_bind (emit (IVariable x type name)) (λ _, emit_ret (LocalVariable x))).

Definition function_Load (ptr : LLVMValue) : Emit LLVMValue :=
  emit_bind fresh (λ r, emit_bind (emit (ILoad r ptr)) (λ _, emit_ret (Temp r))).

Definition function_Store (ptr value : LLVMValue) : Emit unit :=
  emit (IStore ptr value).

Definition function_StoreZero (ptr : LLVMValue) : Emit unit :=
  emit (IStore ptr (Literal 0)).

Definition function_ValueAt (ptr index : LLVMValue) : Emit LLVMValue :=
  emit_bind fresh (λ r, emit_bind (emit (IValueAt r ptr index)) (λ _, emit_ret (Temp r))).

Definition function_If (comparison : TypedComparison) (a b : LLVMValue)
    (body : Emit unit) : Emit unit :=
  in_block body (IIf comparison a b).

Definition function_For (beginValue endValue increment : Z)
    (body : LLVMValue → Emit unit) : Emit unit :=
  emit_bind fresh (λ i, in_block (body (Temp i)) (IFor i beginValue endValue increment)).

(** [compiler.LoadPortElementVariable(element)]: the value of one element of
    an upstream port. *)
Definition compiler_LoadPortElementVariable (e : PortElement) : Emit LLVMValue :=
  emit_bind fresh (λ r, emit_bind (emit (ILoadPortElement r e)) (λ _, emit_ret (Temp r))).

(** [compiler.EnsurePortEmitted(outputPort)]. *)
Definition compiler_EnsurePortEmitted (p : PortId) : LLVMValue := PortVariable p 0.

(** [compiler.EnsurePortEmitted(input)]: the location the input's block of
    elements starts at. *)
Definition compiler_EnsureInputEmitted (p : InputPort) : Emit LLVMValue :=
  match GetPortElements p with
  | e :: _ => emit_ret (PortVariable (ReferencedPort e) (GetIndex e))
  | [] => throw indexOutOfRange
  end.

(** [input.GetInputElement(i)] in the compile pass. *)
Definition emit_GetInputElement (p : InputPort) (i : nat) : Emit PortElement :=
  match GetInputElement p i with
  | Some e => emit_ret e
  | None => throw indexOutOfRange
  end.

Definition GetPortVariableType (p : InputPort) : VariableType := ElementType.

(** Modelled from the spec: [IsPureVector] is not among the sources. A pure
    vector is "an input whose underlying storage is one contiguous buffer":
    consecutive elements of one upstream port. *)
Fixpoint contiguous_from (p : PortId) (i : nat) (elements : PortElements) : bool :=
  match elements with
  | [] => true
  | e :: rest =>
      bool_decide (ReferencedPort e = p) && bool_decide (GetIndex e = i)
      && contiguous_from p (S i) rest
  end.

Definition IsPureVector (p : InputPort) : bool :=
  match GetPortElements p with
  | [] => false
  | e :: rest => contiguous_from (ReferencedPort e) (S (GetIndex e)) rest
  end.

(** Modelled from the spec: [VerifyIsScalar] is not among the sources. It is
    the "explicit shape check": a port of another size than 1 is an error. *)
Definition IsScalar (p : OutputPort) : bool := bool_decide (out_size p = 1).

Definition VerifyIsScalar (p : OutputPort) : Emit unit :=
  if IsScalar p then emit_ret () else throw scalarInputsExpected.

Record CompilerOptions := mkCompilerOptions {
  unrollLoops : bool
}.

Record IRMapCompiler := mkIRMapCompiler {
  GetCompilerOptions : CompilerOptions
}.

(** ** Code generation *)

(** [ExtremalValueNode::GetComparison]. *)
Definition GetComparison (n : ExtremalValueNode) : TypedComparison :=
  if IsMaxNode n then ElementComparison BinaryPredicateType.greater
  else ElementComparison BinaryPredicateType.less.

(** [ExtremalValueNode::CompileLoop]. *)
Definition CompileLoop (n : ExtremalValueNode) (compiler : IRMapCompiler) : Emit unit :=
  inputVal ← compiler_EnsureInputEmitted (input n);
  let outVal := compiler_EnsurePortEmitted (val_id n) in
  let outArgVal := compiler_EnsurePortEmitted (argVal_id n) in
  let inputType := GetPortVariableType (input n) in
  let numInputs := Size (input n) in
  bestVal ← function_Variable inputType "bestVal";
  bestIndex ← function_Variable Int32 "bestArgVal";
  val0 ← function_ValueAt inputVal (function_Literal 0);
  function_Store bestVal val0;;
  function_StoreZero bestIndex;;
  function_For 1 (Z.of_nat numInputs) 1 (λ i,
    v ← function_ValueAt inputVal i;
    best ← function_Load bestVal;
    function_If (GetComparison n) v best (
      function_Store bestVal v;;
      function_Store bestIndex i));;
  finalVal ← function_Load bestVal;
  function_Store outVal finalVal;;
  finalIndex ← function_Load bestIndex;
  function_Store outArgVal finalIndex.

(** The [for (size_t i = 1; i < numInputs; ++i)] of [CompileExpanded], run by
    the compile pass: [count] iterations from [i] on. *)
Fixpoint for_each_index (i count : nat) (body : nat → Emit unit) : Emit unit :=
  match count with
  | 0 => emit_ret ()
  | S count' => body i;; for_each_index (S i) count' body
  end.

(** [ExtremalValueNode::CompileExpanded]. *)
Definition CompileExpanded (n : ExtremalValueNode) (compiler : IRMapCompiler) : Emit unit :=
  let outVal := compiler_EnsurePortEmitted (val_id n) in
  let outArgVal := compiler_EnsurePortEmitted (argVal_id n) in
  let inputType := GetPortVariableType (input n) in
  let numInputs := Size (input n) in
  bestVal ← function_Variable inputType "bestVal";
  bestIndex ← function_Variable Int32 "bestArgVal";
  e0 ← emit_GetInputElement (input n) 0;
  val0 ← compiler_LoadPortElementVariable e0;
  function_Store bestVal val0;;
  function_StoreZero bestIndex;;
  for_each_index 1 (numInputs - 1) (λ i,
    e ← emit_GetInputElement (input n) i;
    v ← compiler_LoadPortElementVariable e;
    best ← function_Load bestVal;
    function_If (GetComparison n) v best (
      function_Store bestVal v;;
      function_Store bestIndex (function_Literal (static_cast_int (Z.of_nat i)))));;
  finalVal ← function_Load bestVal;
  function_Store outVal finalVal;;
  finalIndex ← function_Load bestIndex;
  function_Store outArgVal finalIndex.

(** [ExtremalValueNode::Compile]. *)
Definition Compile (n : ExtremalValueNode) (compiler : IRMapCompiler) : Emit unit :=
  VerifyIsScalar (val n);;
  VerifyIsScalar (argVal n);;
  if IsPureVector (input n) && negb (unrollLoops (GetCompilerOptions compiler))
  then CompileLoop n compiler
  else CompileExpanded n compiler.

(** ** The store of output buffers *)

Section Node.
Context {ValueType : Type} `{Less ValueType}.

(** An element of a buffer: a [ValueType] (ports of the element type) or an
    [int] (the index port). *)
Inductive Cell :=
| CVal (v : ValueType)
| CInt (z : Z).

Definition cell_value (c : Cell) : option ValueType :=
  match c with CVal v => Some v | CInt _ => None end.

Definition cell_int (c : Cell) : option Z :=
  match c with CInt z => Some z | CVal _ => None end.

(** The computed output of every output port of the model. *)
Abbreviation Store := (gmap PortId (list Cell)).

(** [OutputPort::SetOutput]. *)
Definition SetOutput (p : PortId) (values : list Cell) (σ : Store) : Store :=
  <[p := values]> σ.

(** The value one input element observes. *)
Definition element_value (σ : Store) (e : PortElement) : option ValueType :=
  buffer ← σ !! ReferencedPort e;
  c ← buffer !! GetIndex e;
  cell_value c.

(** [InputPort::GetValue]: the observed elements, gathered in order. *)
Definition GetValue (p : InputPort) (σ : Store) : option (list ValueType) :=
  mapM (element_value σ) (GetPortElements p).

(** ** [std::max_element] and [std::min_element]

    The single forward scan of the C++ standard library: the result starts at
    the first element and moves to a later element only when the comparison
    is strict, [*result < *first] for the maximum and [*first < *result] for
    the minimum. On an empty range the result is [last]. An iterator is its
    distance from [begin]. *)

Fixpoint max_element_from (best : ValueType) (result first : nat)
    (l : list ValueType) : nat :=
  match l with
  | [] => result
  | x :: l' =>
      if less best x then max_element_from x first (S first) l'
      else max_element_from best result (S first) l'
  end.

Fixpoint min_element_from (best : ValueType) (result first : nat)
    (l : list ValueType) : nat :=
  match l with
  | [] => result
  | x :: l' =>
      if less x best then min_element_from x first (S first) l'
      else min_element_from best result (S first) l'
  end.

Definition max_element (l : list ValueType) : nat :=
  match l with
  | [] => 0
  | x :: l' => max_element_from x 0 1 l'
  end.

Definition min_element (l : list ValueType) : nat :=
  match l with
  | [] => 0
  | x :: l' => min_element_from x 0 1 l'
  end.

(** [ExtremalValueNode::Compute]. Dereferencing the iterator [result] when it
    is [end()] (an empty input) is undefined. *)
Definition Compute (n : ExtremalValueNode) (σ : Store) : option Store :=
  inputValues ← GetValue (input n) σ;
  let result :=
    if IsMaxNode n then max_element inputValues else min_element inputValues in
  v ← inputValues !! result;
  let index := Z.of_nat result in
  Some (SetOutput (argVal_id n) [CInt (static_cast_int index)]
          (SetOutput (val_id n) [CVal v] σ)).

(** ** Running the emitted function *)

Record LocalSlot := mkLocalSlot {
  slot_type : VariableType;
  slot_content : option Cell
}.

Record Machine := mkMachine {
  ports : Store;
  locals : gmap nat LocalSlot;
  temps : gmap nat Cell
}.

Definition set_temp (r : nat) (c : Cell) (m : Machine) : Machine :=
  mkMachine (ports m) (locals m) (<[r := c]> (temps m)).

(** The value of an operand. *)
Definition operand (m : Machine) (v : LLVMValue) : option Cell :=
  match v with
  | Literal z => Some (CInt z)
  | Temp r => temps m !! r
  | LocalVariable _ | PortVariable _ _ => None
  end.

(** What a typed local holds after a store: an [Int32] local keeps 32 bits. *)
Definition coerce (type : VariableType) (c : Cell) : option Cell :=
  match type, c with
  | ElementType, CVal v => Some (CVal v)
  | Int32, CInt z => Some (CInt (static_cast_int z))
  | _, _ => None
  end.

(** The comparison the native opcode performs. *)
Definition compare (comparison : TypedComparison) (a b : Cell) : option bool :=
  match comparison, a, b with
  | ElementComparison BinaryPredicateType.greater, CVal x, CVal y => Some (less y x)
  | ElementComparison BinaryPredicateType.less, CVal x, CVal y => Some (less x y)
  | _, _, _ => None
  end.

Definition load (m : Machine) (ptr : LLVMValue) : option Cell :=
  match ptr with
  | LocalVariable x => slot ← locals m !! x; slot_content slot
  | PortVariable p offset => buffer ← ports m !! p; buffer !! offset
  | _ => None
  end.

(** A store to the location of a scalar port defines the port's one element. *)
Definition store (m : Machine) (ptr : LLVMValue) (c : Cell) : option Machine :=
  match ptr with
  | LocalVariable x =>
      slot ← locals m !! x;
      c' ← coerce (slot_type slot) c;
      Some (mkMachine (ports m)
              (<[x := mkLocalSlot (slot_type slot) (Some c')]> (locals m)) (temps m))
  | PortVariable p 0 => Some (mkMachine (<[p := [c]]> (ports m)) (locals m) (temps m))
  | _ => None
  end.

Definition value_at (m : Machine) (ptr : LLVMValue) (index : Cell) : option Cell :=
  match ptr, index with
  | PortVariable p offset, CInt i =>
      if (i <? 0)%Z then None
      else buffer ← ports m !! p; buffer !! (offset + Z.to_nat i)
  | _, _ => None
  end.

Definition exec_block (exec : Instr → Machine → option Machine)
    : list Instr → Machine → option Machine :=
  fix run (l : list Instr) (m : Machine) : option Machine :=
    match l with
    | [] => Some m
    | i :: l' => m' ← exec i m; run l' m'
    end.

(** The counted loop: the body runs with the counter at [i], [i + increment],
    ... while the counter is below [endValue]. *)
Fixpoint for_loop (fuel : nat) (body : Z → Machine → option Machine)
    (i endValue increment : Z) (m : Machine) : option Machine :=
  if (i <? endValue)%Z then
    match fuel with
    | 0 => None
    | S fuel' =>
        m' ← body i m; for_loop fuel' body (i + increment)%Z endValue increment m'
    end
  else Some m.

Fixpoint exec (ins : Instr) (m : Machine) {struct ins} : option Machine :=
  match ins with
  | IVariable x type _ =>
      Some (mkMachine (ports m) (<[x := mkLocalSlot type None]> (locals m)) (temps m))
  | ILoad dst ptr => c ← load m ptr; Some (set_temp dst c m)
  | IStore ptr value => c ← operand m value; store m ptr c
  | IValueAt dst ptr index =>
      i ← operand m index; c ← value_at m ptr i; Some (set_temp dst c m)
  | ILoadPortElement dst e =>
      buffer ← ports m !! ReferencedPort e;
      c ← buffer !! GetIndex e;
      Some (set_temp dst c m)
  | IIf comparison a b body =>
      ca ← operand m a;
      cb ← operand m b;
      taken ← compare comparison ca cb;
      if taken : bool then exec_block exec body m else Some m
  | IFor i beginValue endValue increment body =>
      for_loop (Z.to_nat (endValue - beginValue))
        (λ k m, exec_block exec body (set_temp i (CInt k) m))
        beginValue endValue increment m
  end.

(** The function a compile pass built, run on the output buffers [σ]: the
    buffers it leaves. No function exists when the pass threw. *)
Definition run_compiled (pass : Emit unit) (σ : Store) : option Store :=
  match pass (mkIRFunctionEmitter [] 0) with
  | (inr _, function) =>
      ports <$> exec_block exec (emitted function) (mkMachine σ ∅ ∅)
  | (inl _, _) => None
  end.

End Node.

Arguments Cell : clear implicits.
Arguments Machine : clear implicits.

(** The computed output of every output port, for element type [T]. *)
Abbreviation Store T := (gmap PortId (list (Cell T))).

(** ** Filter-bank nodes

    [FilterBankNode.h] declares the classes; their member functions, and the
    filter banks of the dsp library, are not among the sources. *)

Module FilterBank.
Section FilterBank.
Context {ValueType : Type}.
Variable zero : ValueType.
Variables add mul : ValueType → ValueType → ValueType.

(** Modelled from the spec: [dsp::TriangleFilterBank] is "an ordered sequence
    of weight vectors", one per output element. *)
Definition TriangleFilterBank := list (list ValueType).

(** The two concrete classes, [LinearFilterBankNode] and [MelFilterBankNode]. *)
Inductive Kind := Linear | Mel.

(** A filter-bank node. [ownedFilters] is the member the concrete class holds
    by value ([_linearFilters], [_melFilters]). *)
Record FilterBankNode := mkFilterBankNode {
  GetId : NodeId;
  kind : Kind;
  input : InputPort;
  output : OutputPort;
  ownedFilters : TriangleFilterBank
}.

(** [FilterBankNode::_filters], the base class's [const TriangleFilterBank&]:
    the reference designates the table of the concrete class. *)
Definition _filters (n : FilterBankNode) : TriangleFilterBank := ownedFilters n.

(** [FilterBankNode::HasState]: [return true; // Stored state: filters]. *)
Definition HasState (n : FilterBankNode) : bool := true.

Definition output_id (n : FilterBankNode) : PortId := (GetId n, 0).

(** Modelled from the spec: "output[j] = sum over k of input[k] *
    weights[j][k]", summed from left to right. *)
Definition apply_filter (inputValues weights : list ValueType) : ValueType :=
  foldl add zero (zip_with mul inputValues weights).

(** Modelled from the spec: [FilterBankNode::Compute]. *)
Definition Compute (n : FilterBankNode) (σ : Store ValueType) : option (Store ValueType) :=
  inputValues ← GetValue (input n) σ;
  Some (SetOutput (output_id n) (CVal <$> (apply_filter inputValues <$> _filters n)) σ).

(** Modelled from the spec: the archive of a filter-bank node holds the
    "input linkage, output port size, and the entire coefficient table". *)
Inductive ArchivedValue :=
| AInputPort (p : InputPort)
| AOutputPort (p : OutputPort)
| AFilterBank (filters : TriangleFilterBank).

Abbreviation Archive := (gmap string ArchivedValue).

(** The names of the three fields: parameters, as for the extremal-value node. *)
Class FieldNames := {
  inputPortName : string;
  outputPortName : string;
  filtersName : string
}.

Context `{FieldNames}.

(** Modelled from the spec: [WriteToArchive] of the concrete classes, the base
    class part first. *)
Definition WriteToArchive (n : FilterBankNode) (archiver : Archive) : Archive :=
  let archiver := <[inputPortName := AInputPort (input n)]> archiver in
  let archiver := <[outputPortName := AOutputPort (output n)]> archiver in
  <[filtersName := AFilterBank (ownedFilters n)]> archiver.

(** Modelled from the spec: [ReadFromArchive] of the concrete classes, on the
    node object [n]. *)
Definition ReadFromArchive (archiver : Archive) (n : FilterBankNode)
    : option FilterBankNode :=
  match archiver !! inputPortName, archiver !! outputPortName, archiver !! filtersName with
  | Some (AInputPort i), Some (AOutputPort o), Some (AFilterBank filters) =>
      Some {| GetId := GetId n; kind := kind n; input := i; output := o;
              ownedFilters := filters |}
  | _, _, _ => None
  end.

End FilterBank.

Arguments ArchivedValue : clear implicits.
Arguments FilterBankNode : clear implicits.

Abbreviation Archive T := (gmap string (ArchivedValue T)).

End FilterBank.

(** * The vocabulary of the properties *)

(** The integers as element type. *)
#[export] Instance Z_Less : Less Z := Z.ltb.

(** The port names of ELL's [ExtremalValueNode.h], for the examples. *)
Definition ell_names : PortNames :=
  {| inputPortName := "input"; valPortName := "val"; argValPortName := "argVal" |}.

(** The composite names of ELL: [base<first,second>]. *)
Definition ell_type_names : TypeNameFacility :=
  {| TypeName := λ t, match t with
                      | ValueTypeArg name => name
                      | std_true_type => "true"
                      | std_false_type => "false"
                      end;
     compose_name := λ base names,
       base +:+ "<" +:+ foldr (λ name rest, name +:+ rest) ">"
                         (match names with
                          | [] => []
                          | first :: others => first :: ((λ name, "," +:+ name) <$> others)
                          end) |}.

(** The two emission strategies, and the policy of the specification: "expand
    (unroll) whenever either the data is not contiguously addressable or the
    caller has globally requested unrolling; otherwise loop". *)
Inductive Strategy := LoopStrategy | ExpandedStrategy.

Definition strategy_policy (contiguous unroll : bool) : Strategy :=
  if negb contiguous || unroll then ExpandedStrategy else LoopStrategy.

(** Whether the function a pass builds, from the empty function on, has a
    counted loop at its top level. *)
Definition is_loop (i : Instr) : bool :=
  match i with
  | IFor _ _ _ _ _ => true
  | _ => false
  end.

Definition emits_loop (pass : Emit unit) : bool :=
  existsb is_loop (emitted (pass (mkIRFunctionEmitter [] 0)).2).

(** Field names for the filter-bank examples. *)
Definition example_field_names : FilterBank.FieldNames :=
  {| FilterBank.inputPortName := "input";
     FilterBank.outputPortName := "output";
     FilterBank.filtersName := "filters" |}.

(** ** The scan of [max_element] and [min_element]

    Both scans are one scan: [better x best] is [best < x] for the maximum and
    [x < best] for the minimum. *)

Section ScanDefinitions.
Context {T : Type} (better : T → T → bool).

(** The position the scan ends on. *)
Fixpoint scan_from (best : T) (result first : nat) (l : list T) : nat :=
  match l with
  | [] => result
  | x :: l' =>
      if better x best then scan_from x first (S first) l'
      else scan_from best result (S first) l'
  end.

(** The element the scan ends on. *)
Fixpoint scan_best (best : T) (l : list T) : T :=
  match l with
  | [] => best
  | x :: l' => if better x best then scan_best x l' else scan_best best l'
  end.

End ScanDefinitions.

(** ** What the specification means by maximum, minimum and first position,
    and the vocabulary of the proofs *)

Section PropertyDefinitions.
Context {ValueType : Type} `{Less ValueType}.

Definition is_maximum (V : list ValueType) (m : ValueType) : Prop :=
  m ∈ V ∧ ∀ x, x ∈ V → less m x = false.

Definition is_minimum (V : list ValueType) (m : ValueType) : Prop :=
  m ∈ V ∧ ∀ x, x ∈ V → less x m = false.

Definition is_extremum (max : bool) (V : list ValueType) (m : ValueType) : Prop :=
  if max then is_maximum V m else is_minimum V m.

Definition first_position (V : list ValueType) (m : ValueType) (i : nat) : Prop :=
  V !! i = Some m ∧ ∀ j, j < i → V !! j ≠ Some m.

(** The vectors the reduction is meaningful for: [operator<] orders the
    elements of [V] strictly and totally. Every vector of integers is one; a
    floating-point vector is one when it holds no NaN, which compares false
    with every value. *)
Record ordered_on (V : list ValueType) : Prop := {
  ordered_irrefl : ∀ a, a ∈ V → less a a = false;
  ordered_trans : ∀ a b c, a ∈ V → b ∈ V → c ∈ V →
    less a b = true → less b c = true → less a c = true;
  ordered_total : ∀ a b, a ∈ V → b ∈ V →
    less a b = false → less b a = false → a = b
}.

(** The iterator [Compute] dereferences. *)
Definition extremal_element (max : bool) (V : list ValueType) : nat :=
  if max then max_element V else min_element V.

(** The comparison both paths make: [x] replaces [best]. *)
Definition better_of (max : bool) (x best : ValueType) : bool :=
  if max then less best x else less x best.

(** The state of the emitted function between two steps of the reduction:
    the buffers are those of the start, the local [bestVal] holds [best] and
    the local [bestIndex] holds [index]. *)
Record holds (σ : Store ValueType) (xv xi : nat) (best : ValueType) (index : Z)
    (m : Machine ValueType) : Prop := {
  holds_ports : ports m = σ;
  holds_bestVal : locals m !! xv = Some (mkLocalSlot ElementType (Some (CVal best)));
  holds_bestIndex : locals m !! xi = Some (mkLocalSlot Int32 (Some (CInt index)))
}.

(** The two outputs of [Compute] depend on the node through its input port
    and its variant alone. *)
Definition val_output (n : ExtremalValueNode) (σ : Store ValueType)
    : option (list (Cell ValueType)) :=
  σ' ← Compute n σ; σ' !! val_id n.

Definition argVal_output (n : ExtremalValueNode) (σ : Store ValueType)
    : option (list (Cell ValueType)) :=
  σ' ← Compute n σ; σ' !! argVal_id n.

(** The instructions [CompileExpanded] emits for element [i], and for the
    elements from [i] on. *)
Definition expanded_step (n : ExtremalValueNode) (xv xi i t : nat) (e : PortElement)
    : list Instr :=
  [ILoadPortElement t e;
   ILoad (S t) (LocalVariable xv);
   IIf (GetComparison n) (Temp t) (Temp (S t))
     [IStore (LocalVariable xv) (Temp t);
      IStore (LocalVariable xi) (Literal (static_cast_int (Z.of_nat i)))]].

Fixpoint expanded_steps (n : ExtremalValueNode) (xv xi i t : nat)
    (elements : list PortElement) : list Instr :=
  match elements with
  | [] => []
  | e :: rest => expanded_step n xv xi i t e ++ expanded_steps n xv xi (S i) (S (S t)) rest
  end.

(** The body of the loop [CompileLoop] emits, for the counter in [i], the
    candidate in [tv] and the best so far in [tb]. *)
Definition loop_body (n : ExtremalValueNode) (p : PortId) (offset xv xi i tv tb : nat)
    : list Instr :=
  [IValueAt tv (PortVariable p offset) (Temp i);
   ILoad tb (LocalVariable xv);
   IIf (GetComparison n) (Temp tv) (Temp tb)
     [IStore (LocalVariable xv) (Temp tv);
      IStore (LocalVariable xi) (Temp i)]].

End PropertyDefinitions.

Section FieldNames.
Context `{PortNames}.

Definition field_names : list string :=
  [inputPortName; valPortName; argValPortName].

End FieldNames.

Section FilterBankDefinitions.
Context {ValueType : Type}.
Variable zero : ValueType.
Variables add mul : ValueType → ValueType → ValueType.

(** What [Compute] leaves in the output port. *)
Definition filter_output (n : FilterBank.FilterBankNode ValueType) (σ : Store ValueType)
    : option (list (Cell ValueType)) :=
  σ' ← FilterBank.Compute zero add mul n σ; σ' !! FilterBank.output_id n.

End FilterBankDefinitions.

(** ** Example inputs *)

(** The vector [3, 5, 5, 2], held by port 0 of node 7, and a node observing it. *)
Definition tie_store : Store Z :=
  {[ (7, 0) := [CVal 3%Z; CVal 5%Z; CVal 5%Z; CVal 2%Z] ]}.

Definition tie_node (max : bool) : ExtremalValueNode :=
  mkExtremalValueNode 9 max (mkInputPort "input" (port_range (7, 0) 0 4))
    (mkOutputPort "val" 1) (mkOutputPort "argVal" 1).

(** A floating-point element type, as far as [operator<] goes: the numbers,
    ordered as numbers are (here the integers), and NaN, which compares false
    with every value. *)
Inductive Double :=
| Finite (z : Z)
| NaN.

#[export] Instance Double_Less : Less Double := λ a b,
  match a, b with
  | Finite x, Finite y => (x <? y)%Z
  | _, _ => false
  end.

(** The vector [NaN, 1, 2], and a node observing it. *)
Definition nan_store : Store Double :=
  {[ (7, 0) := [CVal NaN; CVal (Finite 1); CVal (Finite 2)] ]}.

(** The same node over the vector [3, 1, 1], which holds no NaN. *)
Definition double_store : Store Double :=
  {[ (7, 0) := [CVal (Finite 3); CVal (Finite 1); CVal (Finite 1)] ]}.

Definition nan_node (max : bool) : ExtremalValueNode :=
  mkExtremalValueNode 9 max (mkInputPort "input" (port_range (7, 0) 0 3))
    (mkOutputPort "val" 1) (mkOutputPort "argVal" 1).

(** The number 2^31 as a [nat]. A unary numeral of that size must never be
    unfolded, so the number is given by its defining equation. *)
Definition wide_count_sig : { N : nat | Z.of_nat N = 2147483648%Z }.
Proof. exists (Z.to_nat 2147483648). apply Z2Nat.id. lia. Qed.

Definition wide_count : nat := proj1_sig wide_count_sig.

Definition wide_input : list Z := replicate wide_count 0%Z ++ [1%Z].

Definition wide_store : Store Z := {[ (0, 0) := CVal <$> wide_input ]}.

Definition wide_node : ExtremalValueNode :=
  mkExtremalValueNode 1 true
    (mkInputPort "input" (port_range (0, 0) 0 (length wide_input)))
    (mkOutputPort "val" 1) (mkOutputPort "argVal" 1).

(** A node read back from an archive that declares a best-value port of size 2. *)
Definition misshapen_node : ExtremalValueNode :=
  mkExtremalValueNode 9 true (mkInputPort "input" (port_range (7, 0) 0 4))
    (mkOutputPort "val" 2) (mkOutputPort "argVal" 1).

(** A transformer that has already copied node 7 as node 17. *)
Definition copy_transformer : ModelTransformer :=
  mkModelTransformer [] 20 {[ (7, 0) := (17, 0) ]}.

Definition copied_node : ExtremalValueNode :=
  mkExtremalValueNode 20 true (mkInputPort "input" (port_range (17, 0) 0 4))
    (mkOutputPort "val" 1) (mkOutputPort "argVal" 1).

(** One filter with weights [1, 0, 1, 0], as the specification's example. *)
Definition example_filter_node : FilterBank.FilterBankNode Z :=
  FilterBank.mkFilterBankNode 3 FilterBank.Linear
    (mkInputPort "input" (port_range (7, 0) 0 4)) (mkOutputPort "output" 1)
    [[1; 0; 1; 0]%Z].

(** The two outputs a path leaves for node [n]. *)
Definition outputs_of (n : ExtremalValueNode) (result : option (Store Z))
    : option (list (Cell Z)) * option (list (Cell Z)) :=
  (result ≫= λ σ', σ' !! val_id n, result ≫= λ σ', σ' !! argVal_id n).

Definition singleton_node (max : bool) : ExtremalValueNode :=
  mkExtremalValueNode 9 max (mkInputPort "input" (port_range (7, 0) 0 1))
    (mkOutputPort "val" 1) (mkOutputPort "argVal" 1).

(** ** The vocabulary of the further properties *)

(** The comparison read from right to left. *)
Definition flipped {T : Type} (H : Less T) : Less T := λ a b, less b a.

(** The node of the other template instance over the same ports. *)
Definition with_variant (max : bool) (n : ExtremalValueNode) : ExtremalValueNode :=
  mkExtremalValueNode (GetId n) max (input n) (val n) (argVal n).

(** The input port is not linked to the output ports of node [n]. *)
Definition unlinked (observer : InputPort) (n : ExtremalValueNode) : Prop :=
  ∀ e, e ∈ GetPortElements observer →
       ReferencedPort e ≠ val_id n ∧ ReferencedPort e ≠ argVal_id n.

(** The instructions [CompileExpanded] appends to a function whose next free
    number is [t], for the input [e0 :: rest]. *)
Definition expanded_code (n : ExtremalValueNode) (t : nat) (e0 : PortElement)
    (rest : list PortElement) : list Instr :=
  [IVariable t ElementType "bestVal"; IVariable (S t) Int32 "bestArgVal";
   ILoadPortElement (S (S t)) e0;
   IStore (LocalVariable t) (Temp (S (S t)));
   IStore (LocalVariable (S t)) (Literal 0)]
  ++ expanded_steps n t (S t) 1 (S (S (S t))) rest
  ++ [ILoad (S (S (S t)) + 2 * length rest) (LocalVariable t);
      IStore (PortVariable (val_id n) 0) (Temp (S (S (S t)) + 2 * length rest));
      ILoad (S (S (S (S t)) + 2 * length rest)) (LocalVariable (S t));
      IStore (PortVariable (argVal_id n) 0) (Temp (S (S (S (S t)) + 2 * length rest)))].

(** The instructions [CompileLoop] appends to a function whose next free
    number is [t], for the input [e0 :: rest]. *)
Definition loop_code (n : ExtremalValueNode) (t : nat) (e0 : PortElement)
    (rest : list PortElement) : list Instr :=
  [IVariable t ElementType "bestVal"; IVariable (S t) Int32 "bestArgVal";
   IValueAt (S (S t)) (PortVariable (ReferencedPort e0) (GetIndex e0)) (Literal 0);
   IStore (LocalVariable t) (Temp (S (S t)));
   IStore (LocalVariable (S t)) (Literal 0)]
  ++ [IFor (S (S (S t))) 1 (Z.of_nat (S (length rest))) 1
        (loop_body n (ReferencedPort e0) (GetIndex e0) t (S t)
           (S (S (S t))) (S (S (S (S t)))) (S (S (S (S (S t))))))]
  ++ [ILoad (S (S (S (S (S (S t)))))) (LocalVariable t);
      IStore (PortVariable (val_id n) 0) (Temp (S (S (S (S (S (S t)))))));
      ILoad (S (S (S (S (S (S (S t))))))) (LocalVariable (S t));
      IStore (PortVariable (argVal_id n) 0) (Temp (S (S (S (S (S (S (S t))))))))].

(** The number of instructions of a block, those of the bodies of its
    conditionals and loops included. *)
Fixpoint instr_size (i : Instr) : nat :=
  match i with
  | IIf _ _ _ body =>
      S ((fix block_size (l : list Instr) : nat :=
            match l with
            | [] => 0
            | x :: l' => instr_size x + block_size l'
            end) body)
  | IFor _ _ _ _ body =>
      S ((fix block_size (l : list Instr) : nat :=
            match l with
            | [] => 0
            | x :: l' => instr_size x + block_size l'
            end) body)
  | _ => 1
  end.

Definition code_size (l : list Instr) : nat :=
  foldr (λ i size, instr_size i + size) 0 l.

(** A second node over the same vector, the min node 10. *)
Definition tie_min_node : ExtremalValueNode :=
  mkExtremalValueNode 10 false (mkInputPort "input" (port_range (7, 0) 0 4))
    (mkOutputPort "val" 1) (mkOutputPort "argVal" 1).

(** The node that observes only [3, 5] of the vector [3, 5, 5, 2]. *)
Definition prefix_node : ExtremalValueNode :=
  mkExtremalValueNode 11 true (mkInputPort "input" (port_range (7, 0) 0 2))
    (mkOutputPort "val" 1) (mkOutputPort "argVal" 1).

(** The node 12 that observes the best value of node 9, a one-element
    vector, and the buffers after node 9 has run as a max node. *)
Definition downstream_node : ExtremalValueNode :=
  mkExtremalValueNode 12 false (mkInputPort "input" (port_range (9, 0) 0 1))
    (mkOutputPort "val" 1) (mkOutputPort "argVal" 1).

Definition tie_store_after : Store Z :=
  <[(9, 1) := [CInt 1]]> (<[(9, 0) := [CVal 5%Z]]> tie_store).

(** The transformer [copy_transformer] after the copy of node 9 as node 20. *)
Definition copied_transformer : ModelTransformer :=
  mkModelTransformer [copied_node] 21
    (<[(9, 1) := (20, 1)]> (<[(9, 0) := (20, 0)]> {[ (7, 0) := (17, 0) ]})).

(** The buffers of the new model once node 7 is copied as node 17. *)
Definition copied_store : Store Z :=
  {[ (17, 0) := [CVal 3%Z; CVal 5%Z; CVal 5%Z; CVal 2%Z] ]}.

(** The store [σ'] of the new model holds, in the image of every mapped port,
    what the store [σ] of the original model holds in the port. *)
Definition corresponds {T : Type} (map : gmap PortId PortId) (σ σ' : Store T) : Prop :=
  ∀ p p', map !! p = Some p' → σ' !! p' = σ !! p.

(** Every image in the port map belongs to a node the transformer has
    already added: its identity is below the next free one. *)
Definition images_below (t : ModelTransformer) : Prop :=
  ∀ p p', portMap t !! p = Some p' → p'.1 < nextId t.

(** * Properties *)

#[export] Instance Z_StrictTotalOrder : StrictTotalOrder Z.
Proof.
  split; unfold less, Z_Less.
  - intros a. apply Z.ltb_irrefl.
  - intros a b c Hab Hbc. apply Z.ltb_lt. apply Z.ltb_lt in Hab, Hbc. lia.
  - intros a b Hab Hba. apply Z.ltb_ge in Hab, Hba. lia.
Qed.

(** ** The scan of [max_element] and [min_element] *)

Section Scan.
Context {T : Type} (better : T → T → bool).

(** The result is a position already visited. *)
Lemma scan_from_lt (l : list T) : ∀ (best : T) (result first : nat),
  result < first → scan_from better best result first l < first + length l.
Proof.
  induction l as [|x l IH]; intros best result first Hlt; simpl; [lia|].
  destruct (better x best);
    [specialize (IH x first (S first))|specialize (IH best result (S first))]; lia.
Qed.

(** The comparison is a strict total order of the elements of [V]. *)
Variable V : list T.
Hypothesis better_irrefl : ∀ a, a ∈ V → better a a = false.
Hypothesis better_trans :
  ∀ a b c, a ∈ V → b ∈ V → c ∈ V →
    better a b = true → better b c = true → better a c = true.
Hypothesis better_total :
  ∀ a b, a ∈ V → b ∈ V → better a b = false → better b a = false → a = b.

(** The invariant of the scan over [pre ++ l], [pre] already visited: [best]
    sits at [result], nothing visited is better, and everything before
    [result] is strictly worse. *)
Lemma scan_from_spec (l : list T) : ∀ (pre : list T) (best : T) (result : nat),
  (∀ x, x ∈ pre ++ l → x ∈ V) →
  pre !! result = Some best →
  (∀ x, x ∈ pre → better x best = false) →
  (∀ j x, j < result → pre !! j = Some x → better best x = true) →
  ∃ m, (pre ++ l) !! scan_from better best result (length pre) l = Some m
    ∧ (∀ x, x ∈ pre ++ l → better x m = false)
    ∧ (∀ j x, j < scan_from better best result (length pre) l →
          (pre ++ l) !! j = Some x → better m x = true).
Proof.
  induction l as [|x l IH]; intros pre best result HinV Hbest Hnone Hbefore.
  - rewrite app_nil_r. simpl. eauto.
  - assert (Hlen : S (length pre) = length (pre ++ [x])).
    { rewrite length_app. simpl. lia. }
    assert (HpreV : ∀ y, y ∈ pre → y ∈ V).
    { intros y Hy. apply HinV, elem_of_app. by left. }
    assert (HxV : x ∈ V).
    { apply HinV, elem_of_app. right. apply list_elem_of_here. }
    assert (HbV : best ∈ V).
    { apply HpreV. by eapply list_elem_of_lookup_2. }
    rewrite (cons_middle x pre l), app_assoc in HinV.
    rewrite (cons_middle x pre l), app_assoc. simpl. rewrite Hlen.
    destruct (better x best) eqn:Hx.
    + apply IH.
      * exact HinV.
      * rewrite lookup_app_r by lia. by rewrite Nat.sub_diag.
      * intros y Hy. apply elem_of_app in Hy as [Hy|Hy].
        -- destruct (better y x) eqn:Hyx; [|done].
           pose proof (Hnone y Hy) as Hn.
           by rewrite (better_trans y x best (HpreV y Hy) HxV HbV Hyx Hx) in Hn.
        -- apply list_elem_of_singleton in Hy as ->. by apply better_irrefl.
      * intros j y Hj Hy. rewrite lookup_app_l in Hy by done.
        assert (Hyin : y ∈ pre) by (eapply list_elem_of_lookup_2; eauto).
        destruct (better x y) eqn:Hxy; [done|].
        destruct (better y x) eqn:Hyx.
        -- pose proof (better_trans y x best (HpreV y Hyin) HxV HbV Hyx Hx) as Hc.
           rewrite (Hnone y Hyin) in Hc. done.
        -- rewrite (better_total x y HxV (HpreV y Hyin) Hxy Hyx) in Hx.
           rewrite (Hnone y Hyin) in Hx. done.
    + apply IH.
      * exact HinV.
      * apply lookup_lt_Some in Hbest as Hlt. by rewrite lookup_app_l.
      * intros y Hy. apply elem_of_app in Hy as [Hy|Hy]; [by apply Hnone|].
        by apply list_elem_of_singleton in Hy as ->.
      * intros j y Hj Hy. apply lookup_lt_Some in Hbest as Hlt.
        rewrite lookup_app_l in Hy by lia. by eapply Hbefore.
Qed.

(** From the first element on. *)
Lemma scan_spec (x : T) (l : list T) :
  (∀ y, y ∈ x :: l → y ∈ V) →
  ∃ m, (x :: l) !! scan_from better x 0 1 l = Some m
    ∧ (∀ y, y ∈ x :: l → better y m = false)
    ∧ (∀ j y, j < scan_from better x 0 1 l → (x :: l) !! j = Some y → better m y = true).
Proof.
  intros HinV. apply (scan_from_spec l [x] x 0).
  - exact HinV.
  - done.
  - intros y Hy. apply list_elem_of_singleton in Hy as ->.
    apply better_irrefl, HinV, list_elem_of_here.
  - intros j y Hj. lia.
Qed.

End Scan.

(** ** The interpreted path *)

Section ComputeProperties.
Context {ValueType : Type} `{Less ValueType}.

Lemma max_element_from_scan (l : list ValueType) : ∀ best result first,
  max_element_from best result first l
  = scan_from (λ x best, less best x) best result first l.
Proof. induction l as [|x l IH]; intros; simpl; [done|]. by rewrite !IH. Qed.

Lemma min_element_from_scan (l : list ValueType) : ∀ best result first,
  min_element_from best result first l
  = scan_from (λ x best, less x best) best result first l.
Proof. induction l as [|x l IH]; intros; simpl; [done|]. by rewrite !IH. Qed.

Lemma first_position_of_worse (V : list ValueType) (m : ValueType) (i : nat)
    (R : ValueType → ValueType → bool) :
  R m m = false →
  V !! i = Some m →
  (∀ j y, j < i → V !! j = Some y → R m y = true) →
  first_position V m i.
Proof.
  intros Hirr Hi Hbefore. split; [done|].
  intros j Hj Hjm. specialize (Hbefore j m Hj Hjm). by rewrite Hirr in Hbefore.
Qed.

(** A strict total order of the element type orders every vector. *)
Lemma StrictTotalOrder_ordered_on `{!StrictTotalOrder ValueType}
    (V : list ValueType) : ordered_on V.
Proof.
  split.
  - intros a _. apply less_irrefl.
  - intros a b c _ _ _. apply less_trans.
  - intros a b _ _. apply less_total.
Qed.

(** On a non-empty ordered vector the scan ends on the extremum, at its first
    position. *)
Lemma extremal_element_spec (max : bool) (V : list ValueType) :
  ordered_on V →
  V ≠ [] →
  ∃ m, V !! extremal_element max V = Some m
    ∧ is_extremum max V m
    ∧ first_position V m (extremal_element max V).
Proof.
  intros Hord Hne.
  assert (Hirr : ∀ m i, V !! i = Some m → less m m = false).
  { intros m i Hm. eapply ordered_irrefl; [exact Hord|].
    by eapply list_elem_of_lookup_2. }
  destruct V as [|x l]; [done|].
  destruct max; simpl.
  - rewrite max_element_from_scan.
    destruct (scan_spec (λ x best, less best x) (x :: l)) with (x := x) (l := l)
      as (m & Hm & Hmax & Hfirst).
    + intros a Ha. by eapply ordered_irrefl.
    + intros a b c Ha Hb Hc Hab Hbc. by apply (ordered_trans _ Hord c b a).
    + intros a b Ha Hb Hab Hba. by apply (ordered_total _ Hord).
    + done.
    + exists m. split_and!; [done| |].
      * split; [by eapply list_elem_of_lookup_2|]. apply Hmax.
      * apply (first_position_of_worse _ _ _ (λ a b, less b a)); [|done..].
        by eapply Hirr.
  - rewrite min_element_from_scan.
    destruct (scan_spec (λ x best, less x best) (x :: l)) with (x := x) (l := l)
      as (m & Hm & Hmin & Hfirst).
    + intros a Ha. by eapply ordered_irrefl.
    + intros a b c Ha Hb Hc Hab Hbc. by apply (ordered_trans _ Hord a b c).
    + intros a b Ha Hb Hab Hba. by apply (ordered_total _ Hord).
    + done.
    + exists m. split_and!; [done| |].
      * split; [by eapply list_elem_of_lookup_2|]. apply Hmin.
      * apply (first_position_of_worse _ _ _ (λ a b, less a b)); [|done..].
        by eapply Hirr.
Qed.

(** The extremum and its first position are unique. *)
Lemma is_extremum_unique (max : bool) (V : list ValueType) (m m' : ValueType) :
  ordered_on V → is_extremum max V m → is_extremum max V m' → m = m'.
Proof.
  intros Hord.
  destruct max; intros [Hin Hm] [Hin' Hm']; apply (ordered_total _ Hord); auto.
Qed.

Lemma first_position_unique (V : list ValueType) (m : ValueType) (i i' : nat) :
  first_position V m i → first_position V m i' → i = i'.
Proof.
  intros [Hi Hlt] [Hi' Hlt'].
  destruct (lt_eq_lt_dec i i') as [[Hc|Hc]|Hc]; [|done|].
  - by destruct (Hlt' i Hc).
  - by destruct (Hlt i' Hc).
Qed.

Lemma static_cast_int_id (z : Z) :
  (-2147483648 ≤ z ≤ INT_MAX)%Z → static_cast_int z = z.
Proof.
  unfold static_cast_int, INT_MAX. intros Hz.
  rewrite Z.mod_small by lia. lia.
Qed.

Lemma static_cast_int_idemp (z : Z) :
  static_cast_int (static_cast_int z) = static_cast_int z.
Proof.
  apply static_cast_int_id. unfold static_cast_int, INT_MAX.
  pose proof (Z.mod_pos_bound (z + 2147483648) 4294967296). lia.
Qed.

(** [Compute], with the input vector named. *)
Lemma Compute_eq (n : ExtremalValueNode) (σ : Store ValueType) (V : list ValueType) :
  GetValue (input n) σ = Some V →
  Compute n σ =
    (v ← V !! extremal_element (IsMaxNode n) V;
     Some (SetOutput (argVal_id n)
             [CInt (static_cast_int (Z.of_nat (extremal_element (IsMaxNode n) V)))]
             (SetOutput (val_id n) [CVal v] σ))).
Proof. intros HV. unfold Compute. rewrite HV. simpl. by destruct (IsMaxNode n). Qed.

Lemma val_id_ne_argVal_id (n : ExtremalValueNode) : val_id n ≠ argVal_id n.
Proof. unfold val_id, argVal_id. congruence. Qed.

(** What [Compute] leaves in the two output ports. *)
Lemma Compute_outputs (n : ExtremalValueNode) (σ σ' : Store ValueType)
    (V : list ValueType) :
  GetValue (input n) σ = Some V →
  Compute n σ = Some σ' →
  ∃ v, V !! extremal_element (IsMaxNode n) V = Some v
    ∧ σ' !! val_id n = Some [CVal v]
    ∧ σ' !! argVal_id n
      = Some [CInt (static_cast_int (Z.of_nat (extremal_element (IsMaxNode n) V)))].
Proof.
  intros HV HC. rewrite (Compute_eq _ _ _ HV) in HC.
  destruct (V !! _) as [v|] eqn:Hv; [|done]. simpl in HC. injection HC as <-.
  exists v. unfold SetOutput. split_and!; [done| |].
  - rewrite lookup_insert_ne by (apply not_eq_sym, val_id_ne_argVal_id).
    apply lookup_insert_eq.
  - apply lookup_insert_eq.
Qed.

(** Every non-empty input has a result. *)
Lemma Compute_defined (n : ExtremalValueNode) (σ : Store ValueType)
    (V : list ValueType) :
  GetValue (input n) σ = Some V → V ≠ [] → is_Some (Compute n σ).
Proof.
  intros HV Hne. rewrite (Compute_eq _ _ _ HV).
  assert (Hlt : extremal_element (IsMaxNode n) V < length V).
  { destruct V as [|x l]; [done|]. unfold extremal_element.
    destruct (IsMaxNode n); simpl.
    - rewrite max_element_from_scan.
      pose proof (scan_from_lt (λ x best, less best x) l x 0 1). lia.
    - rewrite min_element_from_scan.
      pose proof (scan_from_lt (λ x best, less x best) l x 0 1). lia. }
  apply lookup_lt_is_Some_2 in Hlt as [v Hv]. rewrite Hv. simpl. by eexists.
Qed.

(** The input port that observes a whole buffer reads that buffer. *)
Lemma GetValue_port_range (name : string) (p : PortId) (buffer : list ValueType)
    (σ : Store ValueType) :
  σ !! p = Some (CVal <$> buffer) →
  GetValue (mkInputPort name (port_range p 0 (length buffer))) σ = Some buffer.
Proof.
  intros Hp. unfold GetValue. simpl. apply mapM_Some.
  apply Forall2_same_length_lookup_2.
  - unfold port_range. by rewrite length_fmap, length_seq.
  - intros i e v He Hv. unfold port_range in He.
    rewrite list_lookup_fmap in He.
    destruct (seq 0 (length buffer) !! i) as [k|] eqn:Hk; [|done].
    apply lookup_seq in Hk as [-> _]. simpl in He. injection He as <-.
    unfold element_value. simpl. rewrite Hp. simpl.
    rewrite list_lookup_fmap, Hv. done.
Qed.

(** C1 (amended). For every non-empty input vector whose elements
    [operator<] orders strictly and totally (every vector of integers, every
    floating-point vector without NaN), and for the max and the min variant
    alike, [Compute] has a result: the best-value port holds the maximum
    (resp. minimum) element of the input, and the best-index port holds the
    0-based position of the first element with that value, converted to
    [int]. For an input of at most 2^31 elements the port holds that position
    itself. The maximum (resp. minimum) and its first position are the only
    ones the input has. *)
Theorem Compute_extremal_first (n : ExtremalValueNode) (σ : Store ValueType)
    (V : list ValueType) :
  ordered_on V →
  GetValue (input n) σ = Some V →
  V ≠ [] →
  ∃ m i σ', Compute n σ = Some σ'
    ∧ is_extremum (IsMaxNode n) V m
    ∧ first_position V m i
    ∧ σ' !! val_id n = Some [CVal m]
    ∧ σ' !! argVal_id n = Some [CInt (static_cast_int (Z.of_nat i))]
    ∧ ((Z.of_nat (length V) ≤ INT_MAX + 1)%Z →
       σ' !! argVal_id n = Some [CInt (Z.of_nat i)])
    ∧ (∀ m' i', is_extremum (IsMaxNode n) V m' → first_position V m' i' →
                m' = m ∧ i' = i).
Proof.
  intros Hord HV Hne.
  destruct (Compute_defined n σ V HV Hne) as [σ' HC].
  destruct (Compute_outputs n σ σ' V HV HC) as (v & Hv & Hval & Harg).
  destruct (extremal_element_spec (IsMaxNode n) V Hord Hne)
    as (m & Hm & Hext & Hfirst).
  assert (v = m) as -> by congruence.
  exists m, (extremal_element (IsMaxNode n) V), σ'.
  split_and!; [done..| |].
  - intros Hsize. rewrite Harg, static_cast_int_id; [done|].
    apply lookup_lt_Some in Hm. unfold INT_MAX in *. lia.
  - intros m' i' Hext' Hfirst'.
    assert (m' = m) as -> by (by eapply is_extremum_unique).
    split; [done|]. by eapply first_position_unique.
Qed.

(** The index [Compute] reports in general: the position of the first
    extremal element, converted to [int]. *)
Lemma Compute_index_cast `{!StrictTotalOrder ValueType} (n : ExtremalValueNode)
    (σ : Store ValueType) (V : list ValueType) (m : ValueType) (i : nat) :
  GetValue (input n) σ = Some V →
  is_extremum (IsMaxNode n) V m →
  first_position V m i →
  ∃ σ', Compute n σ = Some σ'
    ∧ σ' !! val_id n = Some [CVal m]
    ∧ σ' !! argVal_id n = Some [CInt (static_cast_int (Z.of_nat i))].
Proof.
  intros HV Hext Hfirst.
  assert (Hne : V ≠ []).
  { destruct Hfirst as [Hi _]. by destruct V. }
  destruct (Compute_defined n σ V HV Hne) as [σ' HC].
  destruct (Compute_outputs n σ σ' V HV HC) as (v & Hv & Hval & Harg).
  pose proof (StrictTotalOrder_ordered_on V) as Hord.
  destruct (extremal_element_spec (IsMaxNode n) V Hord Hne)
    as (m' & Hm & Hext' & Hfirst').
  assert (v = m') as -> by congruence.
  assert (m' = m) as -> by (by eapply is_extremum_unique).
  rewrite (first_position_unique _ _ _ _ Hfirst' Hfirst) in Harg.
  by exists σ'.
Qed.

(** C7. [Compute] changes the buffers of the node's own two output ports and
    nothing else: every other buffer of the store is as before, and so is
    what any input port observes that is not linked to those two ports. The
    node itself, its input port and its linkage included, is not a result of
    [Compute]: it is the same before and after. *)
Theorem Compute_frame (n : ExtremalValueNode) (σ σ' : Store ValueType) :
  Compute n σ = Some σ' →
  (∀ p, p ≠ val_id n → p ≠ argVal_id n → σ' !! p = σ !! p)
  ∧ (∀ observer : InputPort,
       (∀ e, e ∈ GetPortElements observer →
             ReferencedPort e ≠ val_id n ∧ ReferencedPort e ≠ argVal_id n) →
       GetValue observer σ' = GetValue observer σ).
Proof.
  intros HC.
  assert (Hframe : ∀ p, p ≠ val_id n → p ≠ argVal_id n → σ' !! p = σ !! p).
  { intros p Hv Ha. unfold Compute in HC.
    destruct (GetValue (input n) σ) as [V|]; [|done]. simpl in HC.
    destruct (V !! _) as [v|]; [|done]. simpl in HC. injection HC as <-.
    unfold SetOutput. by rewrite !lookup_insert_ne. }
  split; [done|].
  intros observer Hobs. unfold GetValue.
  apply Forall_mapM_ext. apply Forall_forall. intros e He.
  destruct (Hobs e He) as [Hv Ha].
  unfold element_value. by rewrite Hframe.
Qed.

End ComputeProperties.

(** ** Examples of the interpreted path *)

Lemma Compute_extremal_first_witness :
  ∃ m i σ', Compute (tie_node true) tie_store = Some σ'
    ∧ is_extremum true [3; 5; 5; 2]%Z m
    ∧ first_position [3; 5; 5; 2]%Z m i
    ∧ σ' !! val_id (tie_node true) = Some [CVal m]
    ∧ σ' !! argVal_id (tie_node true) = Some [CInt (static_cast_int (Z.of_nat i))]
    ∧ ((Z.of_nat (length [3; 5; 5; 2]%Z) ≤ INT_MAX + 1)%Z →
       σ' !! argVal_id (tie_node true) = Some [CInt (Z.of_nat i)])
    ∧ (∀ m' i', is_extremum true [3; 5; 5; 2]%Z m' →
                first_position [3; 5; 5; 2]%Z m' i' → m' = m ∧ i' = i).
Proof.
  apply (Compute_extremal_first (tie_node true) tie_store [3; 5; 5; 2]%Z).
  - apply (StrictTotalOrder_ordered_on (StrictTotalOrder0 := Z_StrictTotalOrder)).
  - reflexivity.
  - discriminate.
Defined.

Lemma Compute_frame_witness :
  (∀ p, p ≠ val_id (tie_node true) → p ≠ argVal_id (tie_node true) →
        (<[argVal_id (tie_node true) := [CInt 1]]>
           (<[val_id (tie_node true) := [CVal 5%Z]]> tie_store)) !! p = tie_store !! p)
  ∧ (∀ observer : InputPort,
       (∀ e, e ∈ GetPortElements observer →
             ReferencedPort e ≠ val_id (tie_node true)
             ∧ ReferencedPort e ≠ argVal_id (tie_node true)) →
       GetValue observer
         (<[argVal_id (tie_node true) := [CInt 1]]>
            (<[val_id (tie_node true) := [CVal 5%Z]]> tie_store))
       = GetValue observer tie_store).
Proof.
  apply (Compute_frame (tie_node true) tie_store). reflexivity.
Defined.

(** Tie-breaking and the singleton input, as the specification lists them. *)
Example Compute_tie_max :
  (Compute (tie_node true) tie_store ≫= λ σ', σ' !! val_id (tie_node true)) = Some [CVal 5%Z]
  ∧ (Compute (tie_node true) tie_store ≫= λ σ', σ' !! argVal_id (tie_node true)) = Some [CInt 1].
Proof. split; reflexivity. Qed.

Example Compute_tie_min :
  (Compute (tie_node false) tie_store ≫= λ σ', σ' !! val_id (tie_node false)) = Some [CVal 2%Z]
  ∧ (Compute (tie_node false) tie_store ≫= λ σ', σ' !! argVal_id (tie_node false)) = Some [CInt 3].
Proof. split; reflexivity. Qed.

(** ** Floating-point inputs

    A floating-point vector without NaN is ordered, so the reduction finds
    its maximum and minimum. A NaN in the vector is not ordered against the
    other elements: on [NaN, 1, 2] the max node and the min node both report
    NaN at position 0, although 1 is less than 2. *)

Lemma Double_ordered_on (V : list Double) : NaN ∉ V → ordered_on V.
Proof.
  intros Hnan.
  assert (Hfin : ∀ a, a ∈ V → ∃ x, a = Finite x).
  { intros [x|] Ha; [by exists x|]. by destruct Hnan. }
  split.
  - intros a Ha. destruct (Hfin a Ha) as [x ->].
    unfold less, Double_Less. apply Z.ltb_irrefl.
  - intros a b c Ha Hb Hc.
    destruct (Hfin a Ha) as [x ->], (Hfin b Hb) as [y ->], (Hfin c Hc) as [z ->].
    unfold less, Double_Less. rewrite !Z.ltb_lt. lia.
  - intros a b Ha Hb.
    destruct (Hfin a Ha) as [x ->], (Hfin b Hb) as [y ->].
    unfold less, Double_Less. rewrite !Z.ltb_ge. intros Hxy Hyx. f_equal. lia.
Qed.

Example Compute_double_min :
  (Compute (nan_node false) double_store ≫= λ σ', σ' !! val_id (nan_node false))
    = Some [CVal (Finite 1)]
  ∧ (Compute (nan_node false) double_store ≫= λ σ', σ' !! argVal_id (nan_node false))
    = Some [CInt 1]
  ∧ ordered_on [Finite 3; Finite 1; Finite 1].
Proof.
  split_and!; [reflexivity..|].
  apply Double_ordered_on. intros Hin.
  repeat (apply elem_of_cons in Hin as [Hin|Hin]; [discriminate|]).
  by apply elem_of_nil in Hin.
Qed.

Example Compute_NaN_first :
  (Compute (nan_node true) nan_store ≫= λ σ', σ' !! val_id (nan_node true))
    = Some [CVal NaN]
  ∧ (Compute (nan_node true) nan_store ≫= λ σ', σ' !! argVal_id (nan_node true))
    = Some [CInt 0]
  ∧ (Compute (nan_node false) nan_store ≫= λ σ', σ' !! val_id (nan_node false))
    = Some [CVal NaN]
  ∧ (Compute (nan_node false) nan_store ≫= λ σ', σ' !! argVal_id (nan_node false))
    = Some [CInt 0]
  ∧ less (Finite 1) (Finite 2) = true
  ∧ ¬ ordered_on [NaN; Finite 1; Finite 2].
Proof.
  split_and!; [reflexivity..|].
  intros Hord.
  assert (Heq : NaN = Finite 1); [|discriminate].
  apply (ordered_total _ Hord); [|by apply list_elem_of_further, list_elem_of_here|done..].
  apply list_elem_of_here.
Qed.

(** ** An input longer than [INT_MAX]

    The index leaves [Compute] through [(int)index]. With 2^31 zeros followed
    by a one, the maximum sits at position 2^31, which no [int] holds. *)

Lemma zeros_then_one_maximum (N : nat) : is_maximum (replicate N 0%Z ++ [1%Z]) 1%Z.
Proof.
  split.
  - apply elem_of_app. right. apply list_elem_of_singleton. done.
  - intros x Hx. apply elem_of_app in Hx as [Hx|Hx].
    + apply elem_of_replicate in Hx as [-> _]. done.
    + apply list_elem_of_singleton in Hx as ->. done.
Qed.

Lemma zeros_then_one_first (N : nat) : first_position (replicate N 0%Z ++ [1%Z]) 1%Z N.
Proof.
  split.
  - rewrite lookup_app_r by (rewrite length_replicate; lia).
    rewrite length_replicate, Nat.sub_diag. done.
  - intros j Hj. rewrite lookup_app_l by (rewrite length_replicate; lia).
    rewrite lookup_replicate_2 by done. discriminate.
Qed.

(** The node that observes [N] zeros and a one, whatever [N]. *)
Lemma Compute_zeros_then_one (N : nat) (V : list Z) (σ : Store Z)
    (n : ExtremalValueNode) :
  V = replicate N 0%Z ++ [1%Z] →
  σ = {[ (0, 0) := CVal <$> V ]} →
  n = mkExtremalValueNode 1 true (mkInputPort "input" (port_range (0, 0) 0 (length V)))
        (mkOutputPort "val" 1) (mkOutputPort "argVal" 1) →
  GetValue (input n) σ = Some V
  ∧ is_maximum V 1%Z
  ∧ first_position V 1%Z N
  ∧ ∃ σ', Compute n σ = Some σ'
      ∧ σ' !! val_id n = Some [CVal 1%Z]
      ∧ σ' !! argVal_id n = Some [CInt (static_cast_int (Z.of_nat N))].
Proof.
  intros HVeq Hσ Hn.
  assert (HV : GetValue (input n) σ = Some V).
  { rewrite Hn, Hσ. apply GetValue_port_range. apply lookup_singleton_eq. }
  assert (Hmax : IsMaxNode n = true) by (by rewrite Hn).
  split_and!.
  - exact HV.
  - rewrite HVeq. apply zeros_then_one_maximum.
  - rewrite HVeq. apply zeros_then_one_first.
  - apply (Compute_index_cast n σ V 1%Z N HV).
    + rewrite Hmax, HVeq. apply zeros_then_one_maximum.
    + rewrite HVeq. apply zeros_then_one_first.
Qed.

Lemma wide_count_eq : Z.of_nat wide_count = 2147483648%Z.
Proof. exact (proj2_sig wide_count_sig). Qed.

(** C1, as stated, fails on [wide_input]: the first maximum is at position
    2^31, and the best-index port holds -2^31, which is not that position. *)
Lemma Compute_index_beyond_INT_MAX :
  (GetValue (input wide_node) wide_store = Some wide_input
   ∧ is_maximum wide_input 1%Z
   ∧ first_position wide_input 1%Z wide_count
   ∧ ∃ σ', Compute wide_node wide_store = Some σ'
       ∧ σ' !! val_id wide_node = Some [CVal 1%Z]
       ∧ σ' !! argVal_id wide_node = Some [CInt (-2147483648)])
  ∧ Z.of_nat wide_count = 2147483648%Z
  ∧ (-2147483648)%Z ≠ Z.of_nat wide_count.
Proof.
  split; [|split; [exact wide_count_eq|rewrite wide_count_eq; discriminate]].
  replace (-2147483648)%Z with (static_cast_int (Z.of_nat wide_count))
    by (rewrite wide_count_eq; reflexivity).
  exact (Compute_zeros_then_one wide_count wide_input wide_store wide_node
           eq_refl eq_refl eq_refl).
Qed.

(** ** Construction *)

Section ConstructionProperties.
Context {ValueType : Type} `{Less ValueType} `{PortNames}.

(** C3 (amended). Construction validates nothing and never fails: for every
    input, a zero-size one included, the constructor returns the node whose
    input port observes exactly that input and whose two output ports have
    size 1; the default constructor returns the node of the zero-size input.
    On a node of zero-size input, [Compute] reads the empty vector and has no
    defined result. *)
Theorem construction_never_fails (max : bool) (this : NodeId) (elements : PortElements) :
  (∃ n, ExtremalValueNode_new max this elements = inr n
      ∧ GetPortElements (input n) = elements
      ∧ Size (input n) = length elements
      ∧ IsMaxNode n = max
      ∧ out_size (val n) = 1 ∧ out_size (argVal n) = 1)
  ∧ ExtremalValueNode_default max this = ExtremalValueNode_new max this []
  ∧ (∃ n, ExtremalValueNode_new max this [] = inr n
      ∧ ∀ σ : Store ValueType, GetValue (input n) σ = Some [] ∧ Compute n σ = None).
Proof.
  split_and!.
  - eexists. split; [reflexivity|]. simpl. by split_and!.
  - reflexivity.
  - eexists. split; [reflexivity|]. intros σ. split; [reflexivity|].
    unfold Compute. simpl. by destruct max.
Qed.

End ConstructionProperties.

(** C3, as stated, fails: constructing the max node 0 over the zero-size input
    raises nothing, it returns a node; and [Compute] is then reached on the
    empty vector, where it has no defined result. *)
Lemma zero_size_construction_succeeds :
  ExtremalValueNode_new (H := ell_names) true 0 []
    = inr (mkExtremalValueNode 0 true (mkInputPort "input" [])
             (mkOutputPort "val" 1) (mkOutputPort "argVal" 1))
  ∧ ExtremalValueNode_default (H := ell_names) true 0
    = inr (mkExtremalValueNode 0 true (mkInputPort "input" [])
             (mkOutputPort "val" 1) (mkOutputPort "argVal" 1))
  ∧ GetValue (mkInputPort "input" []) (∅ : Store Z) = Some []
  ∧ Compute (mkExtremalValueNode 0 true (mkInputPort "input" [])
               (mkOutputPort "val" 1) (mkOutputPort "argVal" 1)) (∅ : Store Z) = None.
Proof. split_and!; reflexivity. Qed.

(** ** The compile pass *)

Section CompileProperties.

Lemma VerifyIsScalar_ok (p : OutputPort) (f : IRFunctionEmitter) :
  out_size p = 1 → VerifyIsScalar p f = (inr (), f).
Proof.
  intros Hp. unfold VerifyIsScalar, IsScalar. by rewrite bool_decide_eq_true_2.
Qed.

Lemma VerifyIsScalar_throws (p : OutputPort) (f : IRFunctionEmitter) :
  out_size p ≠ 1 → VerifyIsScalar p f = (inl scalarInputsExpected, f).
Proof.
  intros Hp. unfold VerifyIsScalar, IsScalar. by rewrite bool_decide_eq_false_2.
Qed.

(** [Compile] after its two shape checks. *)
Lemma Compile_scalar (n : ExtremalValueNode) (compiler : IRMapCompiler)
    (f : IRFunctionEmitter) :
  out_size (val n) = 1 →
  out_size (argVal n) = 1 →
  Compile n compiler f =
    if IsPureVector (input n) && negb (unrollLoops (GetCompilerOptions compiler))
    then CompileLoop n compiler f
    else CompileExpanded n compiler f.
Proof.
  intros Hval Harg. unfold Compile, mbind, Emit_bind, emit_bind.
  rewrite (VerifyIsScalar_ok _ _ Hval), (VerifyIsScalar_ok _ _ Harg).
  by destruct (IsPureVector (input n) && _).
Qed.

(** C5. [Compile] checks the shape of both output ports before it emits
    anything: when the best-value port or the best-index port is not of size
    1, the pass throws [scalarInputsExpected] and the function being built is
    left as it was. *)
Theorem Compile_checks_shape (n : ExtremalValueNode) (compiler : IRMapCompiler)
    (f : IRFunctionEmitter) :
  out_size (val n) ≠ 1 ∨ out_size (argVal n) ≠ 1 →
  Compile n compiler f = (inl scalarInputsExpected, f).
Proof.
  intros Hshape. unfold Compile, mbind, Emit_bind, emit_bind.
  destruct (decide (out_size (val n) = 1)) as [Hval|Hval].
  - destruct Hshape as [Hshape|Hshape]; [done|].
    by rewrite (VerifyIsScalar_ok _ _ Hval), (VerifyIsScalar_throws _ _ Hshape).
  - by rewrite (VerifyIsScalar_throws _ _ Hval).
Qed.

End CompileProperties.

Lemma Compile_checks_shape_witness :
  Compile misshapen_node (mkIRMapCompiler (mkCompilerOptions false))
    (mkIRFunctionEmitter [] 0)
  = (inl scalarInputsExpected, mkIRFunctionEmitter [] 0).
Proof.
  apply (Compile_checks_shape misshapen_node). left. simpl. lia.
Defined.

(** ** Serialization and graph copy *)

Section NodePersistence.
Context {ValueType : Type} `{Less ValueType} `{PortNames}.

Lemma val_output_eq (n : ExtremalValueNode) (σ : Store ValueType) :
  val_output n σ =
    (V ← GetValue (input n) σ;
     v ← V !! extremal_element (IsMaxNode n) V;
     Some [CVal v]).
Proof.
  unfold val_output. destruct (GetValue (input n) σ) as [V|] eqn:HV.
  - rewrite (Compute_eq _ _ _ HV). simpl.
    destruct (V !! _) as [v|]; [simpl|done]. unfold SetOutput.
    rewrite lookup_insert_ne by (apply not_eq_sym, val_id_ne_argVal_id).
    apply lookup_insert_eq.
  - unfold Compute. by rewrite HV.
Qed.

Lemma argVal_output_eq (n : ExtremalValueNode) (σ : Store ValueType) :
  argVal_output n σ =
    (V ← GetValue (input n) σ;
     v ← V !! extremal_element (IsMaxNode n) V;
     Some [CInt (static_cast_int (Z.of_nat (extremal_element (IsMaxNode n) V)))]).
Proof.
  unfold argVal_output. destruct (GetValue (input n) σ) as [V|] eqn:HV.
  - rewrite (Compute_eq _ _ _ HV). simpl.
    destruct (V !! _) as [v|]; [simpl|done]. apply lookup_insert_eq.
  - unfold Compute. by rewrite HV.
Qed.

(** Nodes of one variant that observe the same values compute the same outputs. *)
Lemma outputs_of_same_input (n n' : ExtremalValueNode) (σ σ' : Store ValueType) :
  IsMaxNode n' = IsMaxNode n →
  GetValue (input n') σ' = GetValue (input n) σ →
  val_output n' σ' = val_output n σ ∧ argVal_output n' σ' = argVal_output n σ.
Proof.
  intros Hmax HV. rewrite !val_output_eq, !argVal_output_eq. by rewrite Hmax, HV.
Qed.

Lemma field_names_distinct :
  NoDup field_names →
  inputPortName ≠ valPortName ∧ inputPortName ≠ argValPortName
  ∧ valPortName ≠ argValPortName.
Proof.
  unfold field_names. rewrite !NoDup_cons, !elem_of_cons.
  intros (Hi & Hv & _). split_and!; intros Heq; rewrite Heq in *; tauto.
Qed.

(** C6. [WriteToArchive] and [ReadFromArchive] use the same field names: the
    names written are the input port name and the two output port names, and
    these are the names the read consults and requires. A node read back from
    what a node wrote has that node's ports, and for every input its
    [Compute] leaves in its two output ports what the original's leaves in
    its own. The port names are pairwise distinct, and the node read into is
    of the type of the node written. *)
Theorem archive_round_trip (n fresh : ExtremalValueNode) (archiver : Archive) :
  NoDup field_names →
  IsMaxNode fresh = IsMaxNode n →
  dom (WriteToArchive n archiver) = dom archiver ∪ list_to_set field_names
  ∧ (∀ a a' : Archive,
       (∀ name, name ∈ field_names → a !! name = a' !! name) →
       ReadFromArchive a fresh = ReadFromArchive a' fresh)
  ∧ (∀ (a : Archive) name,
       name ∈ field_names → is_Some (ReadFromArchive a fresh) → is_Some (a !! name))
  ∧ ∃ n', ReadFromArchive (WriteToArchive n archiver) fresh = Some n'
      ∧ input n' = input n ∧ val n' = val n ∧ argVal n' = argVal n
      ∧ IsMaxNode n' = IsMaxNode n
      ∧ ∀ σ : Store ValueType,
          val_output n' σ = val_output n σ ∧ argVal_output n' σ = argVal_output n σ.
Proof.
  intros Hnames Hmax.
  destruct (field_names_distinct Hnames) as (Hiv & Hia & Hva).
  split_and!.
  - unfold WriteToArchive, Node_WriteToArchive, write_field, field_names.
    rewrite !dom_insert_L. simpl.
    apply set_eq. intros name.
    rewrite !elem_of_union, !elem_of_singleton, elem_of_empty. tauto.
  - intros a a' Hsame. unfold ReadFromArchive, read_InputPort, read_OutputPort.
    rewrite <-!Hsame by (unfold field_names; set_solver). done.
  - intros a name Hname [n' Hread].
    unfold ReadFromArchive, read_InputPort, read_OutputPort in Hread.
    simpl in Hread.
    destruct (a !! inputPortName) as [[]|] eqn:Hi; try done.
    destruct (a !! valPortName) as [[]|] eqn:Hv; try done.
    destruct (a !! argValPortName) as [[]|] eqn:Ha; try done.
    unfold field_names in Hname.
    rewrite !elem_of_cons, elem_of_nil in Hname.
    destruct Hname as [->|[->|[->|[]]]]; by eexists.
  - eexists. split.
    + unfold ReadFromArchive, read_InputPort, read_OutputPort,
        WriteToArchive, Node_WriteToArchive, Node_ReadFromArchive, write_field.
      simpl.
      rewrite (lookup_insert_ne _ argValPortName inputPortName) by done.
      rewrite (lookup_insert_ne _ valPortName inputPortName) by done.
      rewrite lookup_insert_eq. simpl.
      rewrite (lookup_insert_ne _ argValPortName valPortName) by done.
      rewrite lookup_insert_eq. simpl.
      rewrite lookup_insert_eq. simpl. reflexivity.
    + simpl. split_and!; [done..|].
      intros σ. by apply outputs_of_same_input.
Qed.

Lemma TransformPortElements_lookup (t : ModelTransformer)
    (elements elements' : PortElements) :
  TransformPortElements t elements = Some elements' →
  Forall2 (λ e e', portMap t !! ReferencedPort e = Some (ReferencedPort e')
                   ∧ GetIndex e' = GetIndex e) elements elements'.
Proof.
  intros Ht. apply mapM_Some_1 in Ht.
  eapply Forall2_impl; [exact Ht|]. simpl. intros e e' He.
  destruct (portMap t !! ReferencedPort e) as [p|]; [|done].
  simpl in He. injection He as <-. done.
Qed.

(** C8. Whenever [TransformPortElements] re-resolves the input, [Copy] of an
    [ArgMinNode] and [Copy] of an [ArgMaxNode] succeed: the copy adds to the
    new model a node of the same variant over the re-resolved input, and maps
    the original's best-value and best-index ports to those of the new node.
    When every port the input is linked to holds in the new model what it
    holds in the original, the copy observes the original's input and its
    [Compute] leaves in its two output ports what the original's leaves in
    its own. *)
Theorem Copy_preserves (this : ExtremalValueNode) (transformer : ModelTransformer)
    (elements : PortElements) :
  TransformPortElements transformer (GetPortElements (input this)) = Some elements →
  ∃ (newNode : ExtremalValueNode) (transformer' : ModelTransformer),
    Copy this transformer = Some (newNode, transformer')
    ∧ GetPortElements (input newNode) = elements
    ∧ IsMaxNode newNode = IsMaxNode this
    ∧ newModel transformer' = newModel transformer ++ [newNode]
    ∧ portMap transformer' !! val_id this = Some (val_id newNode)
    ∧ portMap transformer' !! argVal_id this = Some (argVal_id newNode)
    ∧ (∀ σ σ' : Store ValueType,
         GetValue (input newNode) σ' = GetValue (input this) σ →
         val_output newNode σ' = val_output this σ
         ∧ argVal_output newNode σ' = argVal_output this σ)
    ∧ (∀ σ σ' : Store ValueType,
         (∀ p p', portMap transformer !! p = Some p' → σ' !! p' = σ !! p) →
         GetValue (input newNode) σ' = GetValue (input this) σ).
Proof.
  intros Ht.
  assert (Hcopy : Copy this transformer = Copy_as (IsMaxNode this) this transformer).
  { unfold Copy, ArgMaxNode_Copy, ArgMinNode_Copy. by destruct (IsMaxNode this). }
  rewrite Hcopy. unfold Copy_as. rewrite Ht. simpl.
  eexists _, _. split; [reflexivity|]. simpl.
  assert (Hin : ∀ σ σ' : Store ValueType,
    (∀ p p', portMap transformer !! p = Some p' → σ' !! p' = σ !! p) →
    GetValue (mkInputPort inputPortName elements) σ' = GetValue (input this) σ).
  { intros σ σ' Hσ. unfold GetValue. simpl.
    apply TransformPortElements_lookup in Ht.
    induction Ht as [|e e' l l' [Hp Hi] _ IH]; [done|].
    assert (He : element_value σ' e' = element_value σ e).
    { unfold element_value. by rewrite Hi, (Hσ _ _ Hp). }
    simpl. by rewrite He, IH. }
  split_and!; [done|done|done| | | |].
  - rewrite lookup_insert_ne by (apply not_eq_sym, val_id_ne_argVal_id).
    apply lookup_insert_eq.
  - apply lookup_insert_eq.
  - intros σ σ' HV. by apply outputs_of_same_input.
  - exact Hin.
Qed.

End NodePersistence.

Lemma archive_round_trip_witness :
  ∃ n', ReadFromArchive (H := ell_names)
          (WriteToArchive (H := ell_names) (tie_node true) ∅)
          (mkExtremalValueNode 12 true (mkInputPort "input" [])
             (mkOutputPort "val" 1) (mkOutputPort "argVal" 1)) = Some n'
    ∧ input n' = input (tie_node true)
    ∧ val_output n' tie_store = val_output (tie_node true) tie_store.
Proof.
  destruct (archive_round_trip (ValueType := Z) (H0 := ell_names) (tie_node true)
              (mkExtremalValueNode 12 true (mkInputPort "input" [])
                 (mkOutputPort "val" 1) (mkOutputPort "argVal" 1)) ∅)
    as (_ & _ & _ & n' & Hread & Hinput & _ & _ & _ & Hout).
  - apply (bool_decide_unpack _). vm_compute. exact I.
  - reflexivity.
  - exists n'. split_and!; [exact Hread|exact Hinput|apply Hout].
Defined.

Lemma Copy_preserves_witness :
  (∃ (newNode : ExtremalValueNode) (transformer' : ModelTransformer),
     Copy (H := ell_names) (tie_node true) copy_transformer
       = Some (newNode, transformer')
     ∧ GetPortElements (input newNode) = port_range (17, 0) 0 4
     ∧ IsMaxNode newNode = true
     ∧ portMap transformer' !! val_id (tie_node true) = Some (val_id newNode)
     ∧ portMap transformer' !! argVal_id (tie_node true) = Some (argVal_id newNode)
     ∧ ∀ σ σ' : Store Z,
         (∀ p p', portMap copy_transformer !! p = Some p' → σ' !! p' = σ !! p) →
         GetValue (input newNode) σ' = GetValue (input (tie_node true)) σ)
  ∧ (∃ (newNode : ExtremalValueNode) (transformer' : ModelTransformer),
       Copy (H := ell_names) (tie_node false) copy_transformer
         = Some (newNode, transformer')
       ∧ GetPortElements (input newNode) = port_range (17, 0) 0 4
       ∧ IsMaxNode newNode = false
       ∧ portMap transformer' !! val_id (tie_node false) = Some (val_id newNode)
       ∧ portMap transformer' !! argVal_id (tie_node false) = Some (argVal_id newNode)
       ∧ ∀ σ σ' : Store Z,
           (∀ p p', portMap copy_transformer !! p = Some p' → σ' !! p' = σ !! p) →
           GetValue (input newNode) σ' = GetValue (input (tie_node false)) σ).
Proof.
  split.
  - destruct (Copy_preserves (ValueType := Z) (H0 := ell_names) (tie_node true)
                copy_transformer (port_range (17, 0) 0 4))
      as (newNode & transformer' & HCopy & Hinput & Hmax & _ & Hval & Harg & _ & Hsame);
      [reflexivity|].
    exists newNode, transformer'. split_and!; [exact HCopy|exact Hinput|exact Hmax|exact Hval|exact Harg|exact Hsame].
  - destruct (Copy_preserves (ValueType := Z) (H0 := ell_names) (tie_node false)
                copy_transformer (port_range (17, 0) 0 4))
      as (newNode & transformer' & HCopy & Hinput & Hmax & _ & Hval & Harg & _ & Hsame);
      [reflexivity|].
    exists newNode, transformer'. split_and!; [exact HCopy|exact Hinput|exact Hmax|exact Hval|exact Harg|exact Hsame].
Defined.

(** The copies the two [Copy] functions make of the max and of the min node
    over [3, 5, 5, 2]: node 20 of the same variant, over the image of the
    vector. *)
Example Copy_of_both_variants :
  ArgMaxNode_Copy (H := ell_names) (tie_node true) copy_transformer
    = Some (copied_node, copied_transformer)
  ∧ ArgMinNode_Copy (H := ell_names) (tie_node false) copy_transformer
    = Some (mkExtremalValueNode 20 false
              (mkInputPort "input" (port_range (17, 0) 0 4))
              (mkOutputPort "val" 1) (mkOutputPort "argVal" 1),
            mkModelTransformer
              [mkExtremalValueNode 20 false
                 (mkInputPort "input" (port_range (17, 0) 0 4))
                 (mkOutputPort "val" 1) (mkOutputPort "argVal" 1)]
              21
              (<[(9, 1) := (20, 1)]> (<[(9, 0) := (20, 0)]> {[ (7, 0) := (17, 0) ]}))).
Proof. split; reflexivity. Qed.

(** ** Type names *)

Section TypeNames.
Context `{TypeNameFacility}.

(** C10. For every element type, the max variant and the min variant report
    different type names: [GetTypeName] passes [std::true_type] for the one and
    [std::false_type] for the other as last template argument. The composite
    name is a parameter; it keeps apart the two tag types, and two argument
    lists that differ in the name of the last argument. *)
Theorem GetTypeName_distinct (ValueType : CppType) :
  TypeName std_true_type ≠ TypeName std_false_type →
  (∀ base first a b,
     compose_name base [first; a] = compose_name base [first; b] → a = b) →
  GetTypeName ValueType true ≠ GetTypeName ValueType false.
Proof.
  intros Htags Hinj Heq. unfold GetTypeName, GetCompositeTypeName in Heq.
  simpl in Heq. by apply Hinj in Heq.
Qed.

End TypeNames.

Lemma string_app_cons (a : Ascii.ascii) (s t : string) :
  String a s +:+ t = String a (s +:+ t).
Proof. reflexivity. Qed.

Lemma string_app_length (s t : string) :
  String.length (s +:+ t) = String.length s + String.length t.
Proof.
  induction s as [|a s IH]; [done|]. rewrite string_app_cons. simpl. by rewrite IH.
Qed.

Lemma string_app_inj_r (c a b : string) : a +:+ c = b +:+ c → a = b.
Proof.
  revert b. induction a as [|x a IH]; intros [|y b] Heq.
  - done.
  - apply (f_equal String.length) in Heq.
    rewrite !string_app_length in Heq. simpl in Heq. lia.
  - apply (f_equal String.length) in Heq.
    rewrite !string_app_length in Heq. simpl in Heq. lia.
  - rewrite !string_app_cons in Heq. injection Heq as -> Heq.
    f_equal. by apply IH.
Qed.

Lemma GetTypeName_distinct_witness :
  GetTypeName (H := ell_type_names) (ValueTypeArg "double") true
    ≠ GetTypeName (H := ell_type_names) (ValueTypeArg "double") false
  ∧ GetTypeName (H := ell_type_names) (ValueTypeArg "double") true
    = "ExtremalValueNode<double,true>".
Proof.
  split; [|reflexivity].
  apply (GetTypeName_distinct (H := ell_type_names) (ValueTypeArg "double")).
  - discriminate.
  - intros base first a b Heq. simpl in Heq.
    apply String.app_inj, String.app_inj, String.app_inj in Heq.
    apply string_app_inj_r in Heq. by apply String.app_inj in Heq.
Defined.

Example GetTypeName_double :
  GetTypeName (H := ell_type_names) (ValueTypeArg "double") true
    = "ExtremalValueNode<double,true>"
  ∧ GetTypeName (H := ell_type_names) (ValueTypeArg "double") false
    = "ExtremalValueNode<double,false>".
Proof. split; reflexivity. Qed.

(** ** Filter-bank nodes *)

Section FilterBankProperties.
Context {ValueType : Type} `{Less ValueType} `{FilterBank.FieldNames}.
Variable zero : ValueType.
Variables add mul : ValueType → ValueType → ValueType.

Lemma filter_output_eq (n : FilterBank.FilterBankNode ValueType) (σ : Store ValueType) :
  filter_output zero add mul n σ =
    (inputValues ← GetValue (FilterBank.input n) σ;
     Some (CVal <$> (FilterBank.apply_filter zero add mul inputValues
                       <$> FilterBank.ownedFilters n))).
Proof.
  unfold filter_output, FilterBank.Compute, FilterBank._filters.
  destruct (GetValue _ σ) as [V|]; [simpl|done].
  unfold SetOutput. apply lookup_insert_eq.
Qed.

(** C9. A filter-bank node holds its coefficient table by value and reports
    stored state; the table the base class refers to is that table. What the
    node writes to an archive restores, on read, a node with the same ports
    and an element-wise identical table, whose [Compute] leaves in the output
    port what the original's leaves there, for every input. The three field
    names are pairwise distinct. *)
Theorem filter_bank_state_round_trip (n fresh : FilterBank.FilterBankNode ValueType)
    (archiver : FilterBank.Archive ValueType) :
  NoDup [FilterBank.inputPortName; FilterBank.outputPortName; FilterBank.filtersName] →
  FilterBank.HasState n = true
  ∧ FilterBank._filters n = FilterBank.ownedFilters n
  ∧ FilterBank.WriteToArchive n archiver !! FilterBank.filtersName
    = Some (FilterBank.AFilterBank (FilterBank.ownedFilters n))
  ∧ ∃ n', FilterBank.ReadFromArchive (FilterBank.WriteToArchive n archiver) fresh = Some n'
      ∧ FilterBank.ownedFilters n' = FilterBank.ownedFilters n
      ∧ FilterBank.input n' = FilterBank.input n
      ∧ FilterBank.output n' = FilterBank.output n
      ∧ ∀ σ : Store ValueType, filter_output zero add mul n' σ = filter_output zero add mul n σ.
Proof.
  rewrite !NoDup_cons, !elem_of_cons. intros (Hi & Ho & _).
  assert (Hio : FilterBank.inputPortName ≠ FilterBank.outputPortName) by tauto.
  assert (Hif : FilterBank.inputPortName ≠ FilterBank.filtersName) by tauto.
  assert (Hof : FilterBank.outputPortName ≠ FilterBank.filtersName) by tauto.
  split_and!; [done|done|apply lookup_insert_eq|].
  eexists. split.
  - unfold FilterBank.ReadFromArchive, FilterBank.WriteToArchive.
    rewrite (lookup_insert_ne _ FilterBank.filtersName FilterBank.inputPortName) by done.
    rewrite (lookup_insert_ne _ FilterBank.outputPortName FilterBank.inputPortName) by done.
    rewrite lookup_insert_eq.
    rewrite (lookup_insert_ne _ FilterBank.filtersName FilterBank.outputPortName) by done.
    rewrite lookup_insert_eq.
    rewrite lookup_insert_eq. reflexivity.
  - simpl. split_and!; [done..|]. intros σ. by rewrite !filter_output_eq.
Qed.

End FilterBankProperties.

Lemma filter_bank_state_round_trip_witness :
  FilterBank.HasState example_filter_node = true
  ∧ ∃ n', FilterBank.ReadFromArchive (H := example_field_names)
            (FilterBank.WriteToArchive (H := example_field_names) example_filter_node ∅)
            (FilterBank.mkFilterBankNode 4 FilterBank.Linear
               (mkInputPort "input" []) (mkOutputPort "output" 0) []) = Some n'
      ∧ FilterBank.ownedFilters n' = [[1; 0; 1; 0]%Z].
Proof.
  destruct (filter_bank_state_round_trip (ValueType := Z) (H0 := example_field_names)
              0%Z Z.add Z.mul example_filter_node
              (FilterBank.mkFilterBankNode 4 FilterBank.Linear
                 (mkInputPort "input" []) (mkOutputPort "output" 0) []) ∅)
    as (Hstate & _ & _ & n' & Hread & Hfilters & _).
  - apply (bool_decide_unpack _). vm_compute. exact I.
  - split; [exact Hstate|]. exists n'. split; [exact Hread|exact Hfilters].
Defined.

Example filter_bank_example :
  filter_output 0%Z Z.add Z.mul example_filter_node
    ({[ (7, 0) := [CVal 2%Z; CVal 3%Z; CVal 4%Z; CVal 5%Z] ]} : Store Z)
  = Some [CVal 6%Z].
Proof. reflexivity. Qed.

(** ** The compiled path *)

Section ScanBest.
Context {T : Type} (better : T → T → bool).

Lemma scan_from_best (l : list T) : ∀ (pre : list T) (best : T) (result : nat),
  pre !! result = Some best →
  (pre ++ l) !! scan_from better best result (length pre) l = Some (scan_best better best l).
Proof.
  induction l as [|x l IH]; intros pre best result Hbest; simpl.
  - by rewrite app_nil_r.
  - assert (Hlen : S (length pre) = length (pre ++ [x])).
    { rewrite length_app. simpl. lia. }
    rewrite (cons_middle x pre l), app_assoc, Hlen.
    destruct (better x best); apply IH.
    + rewrite lookup_app_r by lia. by rewrite Nat.sub_diag.
    + apply lookup_lt_Some in Hbest as Hlt. by rewrite lookup_app_l.
Qed.

End ScanBest.

Section CompiledPath.
Context {ValueType : Type} `{Less ValueType}.

Lemma extremal_element_scan (max : bool) (v0 : ValueType) (vs : list ValueType) :
  extremal_element max (v0 :: vs) = scan_from (better_of max) v0 0 1 vs.
Proof.
  destruct max; simpl.
  - apply max_element_from_scan.
  - apply min_element_from_scan.
Qed.

(** [Compute] in terms of the scan. *)
Lemma Compute_scan (n : ExtremalValueNode) (σ : Store ValueType)
    (v0 : ValueType) (vs : list ValueType) :
  GetValue (input n) σ = Some (v0 :: vs) →
  Compute n σ =
    Some (<[argVal_id n :=
              [CInt (static_cast_int
                       (Z.of_nat (scan_from (better_of (IsMaxNode n)) v0 0 1 vs)))]]>
            (<[val_id n := [CVal (scan_best (better_of (IsMaxNode n)) v0 vs)]]> σ)).
Proof.
  intros HV. rewrite (Compute_eq _ _ _ HV), extremal_element_scan.
  pose proof (scan_from_best (better_of (IsMaxNode n)) vs [v0] v0 0 eq_refl) as Hb.
  simpl in Hb. rewrite Hb. done.
Qed.

Lemma compare_GetComparison (n : ExtremalValueNode) (x best : ValueType) :
  compare (GetComparison n) (CVal x) (CVal best) = Some (better_of (IsMaxNode n) x best).
Proof. unfold GetComparison, better_of. by destruct (IsMaxNode n). Qed.

Lemma exec_block_app (a b : list Instr) (m : Machine ValueType) :
  exec_block exec (a ++ b) m = exec_block exec a m ≫= exec_block exec b.
Proof.
  revert m. induction a as [|i a IH]; intros m; simpl; [done|].
  destruct (exec i m) as [m'|]; simpl; [apply IH|done].
Qed.

Lemma exec_block_cons (i : Instr) (l : list Instr) (m : Machine ValueType) :
  exec_block exec (i :: l) m = exec i m ≫= exec_block exec l.
Proof. reflexivity. Qed.

Lemma exec_ILoadPortElement (dst : nat) (e : PortElement) (m : Machine ValueType)
    (buffer : list (Cell ValueType)) (c : Cell ValueType) :
  ports m !! ReferencedPort e = Some buffer →
  buffer !! GetIndex e = Some c →
  exec (ILoadPortElement dst e) m = Some (set_temp dst c m).
Proof. intros Hb Hc. simpl. rewrite Hb. simpl. by rewrite Hc. Qed.

Lemma exec_ILoad_local (dst x : nat) (m : Machine ValueType) (type : VariableType)
    (c : Cell ValueType) :
  locals m !! x = Some (mkLocalSlot type (Some c)) →
  exec (ILoad dst (LocalVariable x)) m = Some (set_temp dst c m).
Proof. intros Hx. simpl. by rewrite Hx. Qed.

Lemma holds_set_temp σ xv xi best index r c (m : Machine ValueType) :
  holds σ xv xi best index m → holds σ xv xi best index (set_temp r c m).
Proof. intros [Hp Hv Hi]. by split. Qed.

(** The conditional update both strategies emit: compare the candidate with
    the best so far, and store the candidate and its index when it wins. *)
Lemma exec_update (n : ExtremalValueNode) (σ : Store ValueType) (xv xi tv tb : nat)
    (index : LLVMValue) (v best : ValueType) (r k : Z) (m : Machine ValueType) :
  xv ≠ xi →
  temps m !! tv = Some (CVal v) →
  temps m !! tb = Some (CVal best) →
  operand m index = Some (CInt k) →
  holds σ xv xi best r m →
  ∃ m', exec (IIf (GetComparison n) (Temp tv) (Temp tb)
                [IStore (LocalVariable xv) (Temp tv);
                 IStore (LocalVariable xi) index]) m = Some m'
    ∧ temps m' = temps m
    ∧ holds σ xv xi
        (if better_of (IsMaxNode n) v best then v else best)
        (if better_of (IsMaxNode n) v best then static_cast_int k else r) m'.
Proof.
  intros Hne Htv Htb Hidx [Hp Hv Hi]. simpl. rewrite Htv, Htb. simpl.
  rewrite compare_GetComparison. simpl.
  destruct (better_of (IsMaxNode n) v best).
  - simpl. rewrite Hv. simpl.
    assert (Hidx' : operand
      {| ports := ports m;
         locals := <[xv := mkLocalSlot ElementType (Some (CVal v))]> (locals m);
         temps := temps m |} index = Some (CInt k)).
    { by destruct index. }
    rewrite Hidx'. simpl. rewrite lookup_insert_ne by done. rewrite Hi. simpl.
    eexists. split; [reflexivity|]. split; [done|]. split; simpl.
    + done.
    + rewrite lookup_insert_ne by done. apply lookup_insert_eq.
    + apply lookup_insert_eq.
  - eexists. split; [reflexivity|]. by split.
Qed.

(** *** The expanded strategy *)

Lemma for_each_index_emits (n : ExtremalValueNode) (xv xi : nat)
    (rest : list PortElement) : ∀ (i : nat) (f : IRFunctionEmitter),
  drop i (GetPortElements (input n)) = rest →
  for_each_index i (length rest) (λ i,
    e ← emit_GetInputElement (input n) i;
    v ← compiler_LoadPortElementVariable e;
    best ← function_Load (LocalVariable xv);
    function_If (GetComparison n) v best (
      function_Store (LocalVariable xv) v;;
      function_Store (LocalVariable xi)
        (function_Literal (static_cast_int (Z.of_nat i))))) f
  = (inr (), mkIRFunctionEmitter
               (emitted f ++ expanded_steps n xv xi i (nextTemp f) rest)
               (nextTemp f + 2 * length rest)).
Proof.
  induction rest as [|e rest IH]; intros i f Hdrop.
  - simpl. unfold emit_ret. destruct f as [code t]. simpl.
    by rewrite app_nil_r, Nat.add_0_r.
  - assert (He : GetInputElement (input n) i = Some e).
    { unfold GetInputElement.
      pose proof (lookup_drop (GetPortElements (input n)) i 0) as Hl.
      rewrite Hdrop, Nat.add_0_r in Hl. by rewrite <-Hl. }
    assert (Hrest : drop (S i) (GetPortElements (input n)) = rest).
    { pose proof (drop_drop (GetPortElements (input n)) 1 i) as Hd.
      rewrite Hdrop in Hd. simpl in Hd. by rewrite Nat.add_1_r in Hd. }
    simpl. unfold mbind at 1, Emit_bind, emit_bind at 1.
    unfold mbind at 1, Emit_bind, emit_bind at 1.
    unfold emit_GetInputElement. rewrite He. unfold emit_ret at 1.
    unfold mbind, Emit_bind, emit_bind, compiler_LoadPortElementVariable,
      function_Load, function_If, function_Store, in_block, fresh, emit, emit_ret.
    simpl. rewrite (IH (S i) _ Hrest). simpl.
    f_equal. f_equal.
    + rewrite <-!app_assoc. done.
    + lia.
Qed.

Lemma element_value_cell (σ : Store ValueType) (e : PortElement) (v : ValueType) :
  element_value σ e = Some v →
  ∃ buffer, σ !! ReferencedPort e = Some buffer ∧ buffer !! GetIndex e = Some (CVal v).
Proof.
  unfold element_value. intros He.
  destruct (σ !! ReferencedPort e) as [buffer|]; [|done]. simpl in He.
  destruct (buffer !! GetIndex e) as [[w|z]|] eqn:Hc; [|done..].
  simpl in He. injection He as ->. by exists buffer.
Qed.

Lemma exec_expanded_steps (n : ExtremalValueNode) (σ : Store ValueType) (xv xi : nat) :
  xv ≠ xi →
  ∀ (elements : list PortElement) (vs : list ValueType),
  Forall2 (λ e v, element_value σ e = Some v) elements vs →
  ∀ (i t : nat) (best : ValueType) (r : nat) (m : Machine ValueType),
  holds σ xv xi best (static_cast_int (Z.of_nat r)) m →
  ∃ m', exec_block exec (expanded_steps n xv xi i t elements) m = Some m'
    ∧ holds σ xv xi (scan_best (better_of (IsMaxNode n)) best vs)
        (static_cast_int (Z.of_nat (scan_from (better_of (IsMaxNode n)) best r i vs))) m'.
Proof.
  intros Hne elements vs Hvs.
  induction Hvs as [|e v elements vs He _ IH]; intros i t best r m Hm.
  - simpl. by exists m.
  - destruct (element_value_cell _ _ _ He) as (buffer & Hbuf & Hcell).
    destruct Hm as [Hp Hv Hi].
    set (m1 := set_temp t (CVal v) m).
    set (m2 := set_temp (S t) (CVal best) m1).
    assert (Hm2 : holds σ xv xi best (static_cast_int (Z.of_nat r)) m2) by by split.
    destruct (exec_update n σ xv xi t (S t)
                (Literal (static_cast_int (Z.of_nat i))) v best
                (static_cast_int (Z.of_nat r)) (static_cast_int (Z.of_nat i)) m2)
      as (m3 & Hexec & _ & Hm3); [done| | |done|done|].
    { unfold m2, m1. simpl. rewrite lookup_insert_ne by lia. apply lookup_insert_eq. }
    { unfold m2. simpl. apply lookup_insert_eq. }
    rewrite static_cast_int_idemp in Hm3.
    destruct (IH (S i) (S (S t))
                (if better_of (IsMaxNode n) v best then v else best)
                (if better_of (IsMaxNode n) v best then i else r) m3)
      as (m' & Hrest & Hm').
    { by destruct (better_of (IsMaxNode n) v best). }
    exists m'. split.
    + cbn [expanded_steps]. rewrite exec_block_app. unfold expanded_step.
      rewrite exec_block_cons.
      rewrite (exec_ILoadPortElement t e m buffer (CVal v)) by (rewrite ?Hp; done).
      cbn [mbind option_bind]. fold m1. rewrite exec_block_cons.
      rewrite (exec_ILoad_local (S t) xv m1 ElementType (CVal best)) by done.
      cbn [mbind option_bind]. fold m2. rewrite exec_block_cons, Hexec.
      exact Hrest.
    + simpl. by destruct (better_of (IsMaxNode n) v best).
Qed.

Lemma emit_bind_ok {A B} (c : Emit A) (k : A → Emit B) (f f' : IRFunctionEmitter)
    (a : A) :
  c f = (inr a, f') → (c ≫= k) f = k a f'.
Proof. intros Hc. unfold mbind, Emit_bind, emit_bind. by rewrite Hc. Qed.

Lemma emit_bind_throws {A B} (c : Emit A) (k : A → Emit B) (f f' : IRFunctionEmitter)
    (e : Exception) :
  c f = (inl e, f') → (c ≫= k) f = (inl e, f').
Proof. intros Hc. unfold mbind, Emit_bind, emit_bind. by rewrite Hc. Qed.

(** The first instructions of both strategies leave [bestVal] and [bestIndex]
    initialised from element 0 and index 0. *)
Lemma exec_IVariable (x : nat) (type : VariableType) (name : string)
    (m : Machine ValueType) :
  exec (IVariable x type name) m
  = Some (mkMachine (ports m) (<[x := mkLocalSlot type None]> (locals m)) (temps m)).
Proof. reflexivity. Qed.

Lemma exec_IStore_local (x : nat) (value : LLVMValue) (m : Machine ValueType)
    (type : VariableType) (old : option (Cell ValueType)) (c c' : Cell ValueType) :
  operand m value = Some c →
  locals m !! x = Some (mkLocalSlot type old) →
  coerce type c = Some c' →
  exec (IStore (LocalVariable x) value) m
  = Some (mkMachine (ports m) (<[x := mkLocalSlot type (Some c')]> (locals m)) (temps m)).
Proof. intros Hc Hx Hc'. simpl. rewrite Hc. simpl. rewrite Hx. simpl. by rewrite Hc'. Qed.

Lemma exec_IStore_port (p : PortId) (value : LLVMValue) (m : Machine ValueType)
    (c : Cell ValueType) :
  operand m value = Some c →
  exec (IStore (PortVariable p 0) value) m
  = Some (mkMachine (<[p := [c]]> (ports m)) (locals m) (temps m)).
Proof. intros Hc. simpl. by rewrite Hc. Qed.

(** The last instructions of both strategies store the two locals into the
    two scalar output locations. *)
Lemma exec_epilogue (σ : Store ValueType) (xv xi t t' : nat) (pv pa : PortId)
    (best : ValueType) (index : Z) (m : Machine ValueType) :
  holds σ xv xi best index m →
  ports <$> exec_block exec
    [ILoad t (LocalVariable xv); IStore (PortVariable pv 0) (Temp t);
     ILoad t' (LocalVariable xi); IStore (PortVariable pa 0) (Temp t')] m
  = Some (<[pa := [CInt index]]> (<[pv := [CVal best]]> σ)).
Proof.
  intros [Hp Hv Hi].
  rewrite exec_block_cons, (exec_ILoad_local t xv m ElementType (CVal best)) by done.
  cbn [mbind option_bind].
  rewrite exec_block_cons, (exec_IStore_port pv (Temp t) _ (CVal best))
    by (simpl; apply lookup_insert_eq).
  cbn [mbind option_bind].
  rewrite exec_block_cons.
  erewrite (exec_ILoad_local t' xi _ Int32 (CInt index)) by (simpl; exact Hi).
  cbn [mbind option_bind].
  rewrite exec_block_cons, (exec_IStore_port pa (Temp t') _ (CInt index))
    by (simpl; apply lookup_insert_eq).
  simpl. by rewrite Hp.
Qed.

Lemma CompileExpanded_emits (n : ExtremalValueNode) (compiler : IRMapCompiler)
    (e0 : PortElement) (rest : list PortElement) :
  GetPortElements (input n) = e0 :: rest →
  CompileExpanded n compiler (mkIRFunctionEmitter [] 0)
  = (inr (), mkIRFunctionEmitter
      ([IVariable 0 ElementType "bestVal"; IVariable 1 Int32 "bestArgVal";
        ILoadPortElement 2 e0;
        IStore (LocalVariable 0) (Temp 2);
        IStore (LocalVariable 1) (Literal 0)]
       ++ expanded_steps n 0 1 1 3 rest
       ++ [ILoad (3 + 2 * length rest) (LocalVariable 0);
           IStore (PortVariable (val_id n) 0) (Temp (3 + 2 * length rest));
           ILoad (S (3 + 2 * length rest)) (LocalVariable 1);
           IStore (PortVariable (argVal_id n) 0) (Temp (S (3 + 2 * length rest)))])
      (S (S (3 + 2 * length rest)))).
Proof.
  intros Hel. unfold CompileExpanded. cbv zeta.
  assert (He0 : emit_GetInputElement (input n) 0 = emit_ret e0).
  { unfold emit_GetInputElement, GetInputElement. by rewrite Hel. }
  assert (Hcount : Size (input n) - 1 = length rest).
  { unfold Size. rewrite Hel. simpl. lia. }
  rewrite He0, Hcount.
  do 6 (erewrite emit_bind_ok by reflexivity; cbv beta).
  erewrite emit_bind_ok;
    [|apply (for_each_index_emits n 0 1 rest 1); by rewrite Hel].
  cbv beta.
  do 3 (erewrite emit_bind_ok by reflexivity; cbv beta).
  unfold function_Store, emit. simpl. rewrite <-!app_assoc. reflexivity.
Qed.

Lemma CompileExpanded_empty (n : ExtremalValueNode) (compiler : IRMapCompiler) :
  GetPortElements (input n) = [] →
  CompileExpanded n compiler (mkIRFunctionEmitter [] 0)
  = (inl indexOutOfRange,
     mkIRFunctionEmitter
       [IVariable 0 ElementType "bestVal"; IVariable 1 Int32 "bestArgVal"] 2).
Proof.
  intros Hel. unfold CompileExpanded. cbv zeta.
  assert (He0 : emit_GetInputElement (input n) 0 = throw indexOutOfRange).
  { unfold emit_GetInputElement, GetInputElement. by rewrite Hel. }
  rewrite He0.
  do 2 (erewrite emit_bind_ok by reflexivity; cbv beta).
  apply emit_bind_throws. reflexivity.
Qed.

(** The expanded strategy computes what [Compute] computes. *)
Lemma run_CompileExpanded (n : ExtremalValueNode) (compiler : IRMapCompiler)
    (σ : Store ValueType) (V : list ValueType) :
  GetValue (input n) σ = Some V →
  run_compiled (CompileExpanded n compiler) σ = Compute n σ.
Proof.
  intros HV. unfold run_compiled.
  destruct (GetPortElements (input n)) as [|e0 rest] eqn:Hel.
  - rewrite (CompileExpanded_empty n compiler Hel).
    unfold Compute. rewrite HV. unfold GetValue in HV. rewrite Hel in HV.
    injection HV as <-. simpl. by destruct (IsMaxNode n).
  - rewrite (CompileExpanded_emits n compiler e0 rest Hel). cbn [emitted].
    assert (HV' := HV). unfold GetValue in HV'. rewrite Hel in HV'.
    apply mapM_Some_1 in HV'. inversion HV' as [|? v0 ? vs He0 Hrest]; subst.
    destruct (element_value_cell _ _ _ He0) as (buffer & Hbuf & Hcell).
    rewrite (Compute_scan n σ v0 vs HV).
    rewrite exec_block_app.
    set (m0 := mkMachine σ
      (<[1 := mkLocalSlot Int32 (Some (CInt 0))]>
         (<[0 := mkLocalSlot ElementType (Some (CVal v0))]>
            (<[1 := mkLocalSlot Int32 None]>
               (<[0 := mkLocalSlot ElementType None]> ∅))))
      (<[2 := CVal v0]> ∅) : Machine ValueType).
    assert (Hpro : exec_block exec
      [IVariable 0 ElementType "bestVal"; IVariable 1 Int32 "bestArgVal";
       ILoadPortElement 2 e0; IStore (LocalVariable 0) (Temp 2);
       IStore (LocalVariable 1) (Literal 0)] (mkMachine σ ∅ ∅) = Some m0).
    { rewrite exec_block_cons, exec_IVariable. cbn [mbind option_bind].
      rewrite exec_block_cons, exec_IVariable. cbn [mbind option_bind].
      rewrite exec_block_cons,
        (exec_ILoadPortElement 2 e0 _ buffer (CVal v0)) by done.
      cbn [mbind option_bind].
      rewrite exec_block_cons.
      erewrite (exec_IStore_local 0 (Temp 2) _ ElementType None (CVal v0) (CVal v0));
        [|simpl; apply lookup_insert_eq
         |simpl; rewrite lookup_insert_ne by lia; apply lookup_insert_eq
         |done].
      cbn [mbind option_bind].
      rewrite exec_block_cons.
      erewrite (exec_IStore_local 1 (Literal 0) _ Int32 None (CInt 0) (CInt 0));
        [|done
         |simpl; rewrite lookup_insert_ne by lia; apply lookup_insert_eq
         |done].
      done. }
    rewrite Hpro. cbn [mbind option_bind].
    assert (Hm0 : holds σ 0 1 v0 (static_cast_int (Z.of_nat 0)) m0).
    { split; [done| |].
      - unfold m0. simpl. rewrite lookup_insert_ne by lia. apply lookup_insert_eq.
      - unfold m0. simpl. apply lookup_insert_eq. }
    destruct (exec_expanded_steps n σ 0 1 ltac:(lia) rest vs Hrest 1 3 v0 0 m0 Hm0)
      as (m' & Hsteps & Hm').
    rewrite exec_block_app, Hsteps. cbn [mbind option_bind].
    by apply exec_epilogue.
Qed.

(** *** The loop strategy *)

Lemma contiguous_from_lookup (p : PortId) (elements : list PortElement) :
  ∀ (i j : nat) (e : PortElement),
  contiguous_from p i elements = true →
  elements !! j = Some e →
  ReferencedPort e = p ∧ GetIndex e = i + j.
Proof.
  induction elements as [|e0 rest IH]; intros i j e Hc He; [done|].
  simpl in Hc. apply andb_true_iff in Hc as [Hc Hrest].
  apply andb_true_iff in Hc as [Hp Hi].
  apply bool_decide_eq_true in Hp, Hi.
  destruct j as [|j]; simpl in He.
  - injection He as <-. split; [done|lia].
  - destruct (IH (S i) j e Hrest He) as [? ?]. split; [done|lia].
Qed.

(** A pure vector is a block of one port. *)
Lemma IsPureVector_block (p : InputPort) :
  IsPureVector p = true →
  ∃ e0 rest, GetPortElements p = e0 :: rest
    ∧ ∀ j e, (e0 :: rest) !! j = Some e →
        ReferencedPort e = ReferencedPort e0 ∧ GetIndex e = GetIndex e0 + j.
Proof.
  unfold IsPureVector. destruct (GetPortElements p) as [|e0 rest]; [done|].
  intros Hc. exists e0, rest. split; [done|].
  intros [|j] e He; simpl in He.
  - injection He as <-. split; [done|lia].
  - destruct (contiguous_from_lookup _ _ _ _ _ Hc He) as [? ?]. split; [done|lia].
Qed.

Lemma exec_IValueAt (dst : nat) (p : PortId) (offset : nat) (index : LLVMValue)
    (m : Machine ValueType) (k : nat) (buffer : list (Cell ValueType))
    (c : Cell ValueType) :
  operand m index = Some (CInt (Z.of_nat k)) →
  ports m !! p = Some buffer →
  buffer !! (offset + k) = Some c →
  exec (IValueAt dst (PortVariable p offset) index) m = Some (set_temp dst c m).
Proof.
  intros Hi Hb Hc. simpl. rewrite Hi. simpl.
  destruct (Z.ltb_spec (Z.of_nat k) 0) as [Hlt|_]; [lia|].
  rewrite Hb. simpl. by rewrite Nat2Z.id, Hc.
Qed.

Lemma for_loop_scan (n : ExtremalValueNode) (σ : Store ValueType) (p : PortId)
    (offset xv xi i tv tb : nat) (buffer : list (Cell ValueType)) :
  xv ≠ xi → i ≠ tv → i ≠ tb → tv ≠ tb →
  σ !! p = Some buffer →
  ∀ (vs : list ValueType) (k fuel : nat) (best : ValueType) (r : nat)
    (m : Machine ValueType),
  length vs ≤ fuel →
  (∀ j v, vs !! j = Some v → buffer !! (offset + (k + j)) = Some (CVal v)) →
  holds σ xv xi best (static_cast_int (Z.of_nat r)) m →
  ∃ m', for_loop fuel
          (λ c m, exec_block exec (loop_body n p offset xv xi i tv tb)
                    (set_temp i (CInt c) m))
          (Z.of_nat k) (Z.of_nat (k + length vs)) 1 m = Some m'
    ∧ holds σ xv xi (scan_best (better_of (IsMaxNode n)) best vs)
        (static_cast_int (Z.of_nat (scan_from (better_of (IsMaxNode n)) best r k vs))) m'.
Proof.
  intros Hne Hitv Hitb Htvtb Hbuf vs.
  induction vs as [|v vs IH]; intros k fuel best r m Hfuel Hvs Hm.
  - exists m. split; [|done]. simpl length.
    destruct fuel; simpl;
      (destruct (Z.ltb_spec (Z.of_nat k) (Z.of_nat (k + 0))) as [Hlt|_]; [lia|done]).
  - destruct fuel as [|fuel]; [simpl in Hfuel; lia|].
    destruct Hm as [Hp Hv Hi].
    set (m1 := set_temp i (CInt (Z.of_nat k)) m).
    set (m2 := set_temp tv (CVal v) m1).
    set (m3 := set_temp tb (CVal best) m2).
    assert (Hm3 : holds σ xv xi best (static_cast_int (Z.of_nat r)) m3) by by split.
    destruct (exec_update n σ xv xi tv tb (Temp i) v best
                (static_cast_int (Z.of_nat r)) (Z.of_nat k) m3)
      as (m4 & Hexec & _ & Hm4); [done| | | |done|].
    { unfold m3, m2. simpl. rewrite lookup_insert_ne by done. apply lookup_insert_eq. }
    { unfold m3. simpl. apply lookup_insert_eq. }
    { unfold m3, m2, m1. simpl. rewrite !lookup_insert_ne by done.
      apply lookup_insert_eq. }
    destruct (IH (S k) fuel
                (if better_of (IsMaxNode n) v best then v else best)
                (if better_of (IsMaxNode n) v best then k else r) m4)
      as (m' & Hloop & Hm').
    { simpl in Hfuel. lia. }
    { intros j w Hj. replace (S k + j) with (k + S j) by lia. by apply Hvs. }
    { by destruct (better_of (IsMaxNode n) v best). }
    assert (Hbody : exec_block exec (loop_body n p offset xv xi i tv tb) m1 = Some m4).
    { unfold loop_body. rewrite exec_block_cons.
      rewrite (exec_IValueAt tv p offset (Temp i) m1 k buffer (CVal v)).
      - cbn [mbind option_bind]. fold m2. rewrite exec_block_cons.
        rewrite (exec_ILoad_local tb xv m2 ElementType (CVal best)) by done.
        cbn [mbind option_bind]. fold m3. rewrite exec_block_cons, Hexec. done.
      - unfold m1. simpl. apply lookup_insert_eq.
      - by rewrite <-Hp in Hbuf.
      - rewrite <-(Nat.add_0_r k). by apply Hvs. }
    exists m'. split.
    + cbn [for_loop].
      destruct (Z.ltb_spec (Z.of_nat k) (Z.of_nat (k + length (v :: vs)))) as [_|Hge];
        [|simpl in Hge; lia].
      fold m1. rewrite Hbody. cbn [mbind option_bind].
      replace (Z.of_nat k + 1)%Z with (Z.of_nat (S k)) by lia.
      replace (k + length (v :: vs)) with (S k + length vs) by (simpl; lia).
      exact Hloop.
    + simpl. by destruct (better_of (IsMaxNode n) v best).
Qed.

Lemma CompileLoop_emits (n : ExtremalValueNode) (compiler : IRMapCompiler)
    (e0 : PortElement) (rest : list PortElement) :
  GetPortElements (input n) = e0 :: rest →
  CompileLoop n compiler (mkIRFunctionEmitter [] 0)
  = (inr (), mkIRFunctionEmitter
      ([IVariable 0 ElementType "bestVal"; IVariable 1 Int32 "bestArgVal";
        IValueAt 2 (PortVariable (ReferencedPort e0) (GetIndex e0)) (Literal 0);
        IStore (LocalVariable 0) (Temp 2);
        IStore (LocalVariable 1) (Literal 0)]
       ++ [IFor 3 1 (Z.of_nat (S (length rest))) 1
             (loop_body n (ReferencedPort e0) (GetIndex e0) 0 1 3 4 5)]
       ++ [ILoad 6 (LocalVariable 0);
           IStore (PortVariable (val_id n) 0) (Temp 6);
           ILoad 7 (LocalVariable 1);
           IStore (PortVariable (argVal_id n) 0) (Temp 7)]) 8).
Proof.
  intros Hel. unfold CompileLoop, compiler_EnsureInputEmitted, Size.
  rewrite Hel. reflexivity.
Qed.

(** The loop strategy computes what [Compute] computes, on a pure vector. *)
Lemma run_CompileLoop (n : ExtremalValueNode) (compiler : IRMapCompiler)
    (σ : Store ValueType) (V : list ValueType) :
  GetValue (input n) σ = Some V →
  IsPureVector (input n) = true →
  run_compiled (CompileLoop n compiler) σ = Compute n σ.
Proof.
  intros HV Hpure. unfold run_compiled.
  destruct (IsPureVector_block _ Hpure) as (e0 & rest & Hel & Hblock).
  rewrite (CompileLoop_emits n compiler e0 rest Hel). cbn [emitted].
  assert (HV' := HV). unfold GetValue in HV'. rewrite Hel in HV'.
  apply mapM_Some_1 in HV'.
  assert (Hcells : ∃ buffer, σ !! ReferencedPort e0 = Some buffer
            ∧ ∀ j v, V !! j = Some v → buffer !! (GetIndex e0 + j) = Some (CVal v)).
  { inversion HV' as [|? v0 ? vs He0 _]; subst.
    destruct (element_value_cell _ _ _ He0) as (buffer & Hbuf & _).
    exists buffer. split; [done|]. intros j v Hj.
    destruct (Forall2_lookup_r _ _ _ _ _ HV' Hj) as (e & He & Hev).
    destruct (Hblock j e He) as [Hp Hi].
    destruct (element_value_cell _ _ _ Hev) as (buffer' & Hbuf' & Hcell).
    rewrite Hp, Hbuf in Hbuf'. injection Hbuf' as <-. by rewrite <-Hi. }
  destruct Hcells as (buffer & Hbuf & Hcells).
  inversion HV' as [|? v0 ? vs He0 Hrest]; subst.
  rewrite (Compute_scan n σ v0 vs HV).
  set (m0 := mkMachine σ
    (<[1 := mkLocalSlot Int32 (Some (CInt 0))]>
       (<[0 := mkLocalSlot ElementType (Some (CVal v0))]>
          (<[1 := mkLocalSlot Int32 None]>
             (<[0 := mkLocalSlot ElementType None]> ∅))))
    (<[2 := CVal v0]> ∅) : Machine ValueType).
  assert (Hm0 : holds σ 0 1 v0 (static_cast_int (Z.of_nat 0)) m0).
  { split; [done| |].
    - unfold m0. simpl. rewrite lookup_insert_ne by lia. apply lookup_insert_eq.
    - unfold m0. simpl. apply lookup_insert_eq. }
  destruct (for_loop_scan n σ (ReferencedPort e0) (GetIndex e0) 0 1 3 4 5 buffer
              ltac:(lia) ltac:(lia) ltac:(lia) ltac:(lia) Hbuf
              vs 1 (length vs) v0 0 m0 ltac:(lia))
    as (m' & Hloop & Hm'); [|exact Hm0|].
  { intros j v Hj. apply (Hcells (S j) v). exact Hj. }
  assert (Hpro : exec_block exec
    [IVariable 0 ElementType "bestVal"; IVariable 1 Int32 "bestArgVal";
     IValueAt 2 (PortVariable (ReferencedPort e0) (GetIndex e0)) (Literal 0);
     IStore (LocalVariable 0) (Temp 2);
     IStore (LocalVariable 1) (Literal 0)] (mkMachine σ ∅ ∅) = Some m0).
  { rewrite exec_block_cons, exec_IVariable. cbn [mbind option_bind].
    rewrite exec_block_cons, exec_IVariable. cbn [mbind option_bind].
    rewrite exec_block_cons.
    erewrite (exec_IValueAt 2 _ _ (Literal 0) _ 0 buffer (CVal v0));
      [|done|done|by apply (Hcells 0 v0)].
    cbn [mbind option_bind].
    rewrite exec_block_cons.
    erewrite (exec_IStore_local 0 (Temp 2) _ ElementType None (CVal v0) (CVal v0));
      [|simpl; apply lookup_insert_eq
       |simpl; rewrite lookup_insert_ne by lia; apply lookup_insert_eq
       |done].
    cbn [mbind option_bind].
    rewrite exec_block_cons.
    erewrite (exec_IStore_local 1 (Literal 0) _ Int32 None (CInt 0) (CInt 0));
      [|done
       |simpl; rewrite lookup_insert_ne by lia; apply lookup_insert_eq
       |done].
    done. }
  rewrite exec_block_app, Hpro. cbn [mbind option_bind].
  rewrite exec_block_app, exec_block_cons. cbn [exec].
  replace (Z.to_nat (Z.of_nat (S (length rest)) - 1)) with (length vs)
    by (apply Forall2_length in Hrest; lia).
  replace (S (length rest)) with (1 + length vs)
    by (apply Forall2_length in Hrest; lia).
  change 1%Z with (Z.of_nat 1) at 1.
  rewrite Hloop. cbn [mbind option_bind exec_block].
  by apply exec_epilogue.
Qed.

End CompiledPath.

(** *** The strategy [Compile] selects *)

Section StrategySelection.

Lemma expanded_steps_no_loop (n : ExtremalValueNode) (xv xi : nat)
    (elements : list PortElement) : ∀ i t,
  existsb is_loop (expanded_steps n xv xi i t elements) = false.
Proof.
  induction elements as [|e rest IH]; intros i t; simpl; [done|]. apply IH.
Qed.

(** The loop strategy emits a counted loop; the expanded strategy never does. *)
Lemma CompileLoop_emits_loop (n : ExtremalValueNode) (compiler : IRMapCompiler) :
  IsPureVector (input n) = true → emits_loop (CompileLoop n compiler) = true.
Proof.
  intros Hpure. destruct (IsPureVector_block _ Hpure) as (e0 & rest & Hel & _).
  unfold emits_loop. by rewrite (CompileLoop_emits n compiler e0 rest Hel).
Qed.

Lemma CompileExpanded_emits_no_loop (n : ExtremalValueNode) (compiler : IRMapCompiler) :
  emits_loop (CompileExpanded n compiler) = false.
Proof.
  unfold emits_loop.
  destruct (GetPortElements (input n)) as [|e0 rest] eqn:Hel.
  - by rewrite (CompileExpanded_empty n compiler Hel).
  - rewrite (CompileExpanded_emits n compiler e0 rest Hel). cbn [emitted snd].
    rewrite !existsb_app, expanded_steps_no_loop. done.
Qed.

(** C4. Once the shape checks have passed, [Compile] is [CompileLoop] if and
    only if the input is a pure vector and the unroll-loops option is off, and
    [CompileExpanded] in every other case. The choice is the specification's
    policy: a function of those two booleans alone, whatever the node, the
    other options and the state of the builder. It shows in the function
    built: it has a counted loop exactly when the loop strategy is selected. *)
Theorem Compile_selects_strategy (n : ExtremalValueNode) (compiler : IRMapCompiler)
    (f : IRFunctionEmitter) :
  out_size (val n) = 1 →
  out_size (argVal n) = 1 →
  Compile n compiler f =
    match strategy_policy (IsPureVector (input n))
            (unrollLoops (GetCompilerOptions compiler)) with
    | LoopStrategy => CompileLoop n compiler f
    | ExpandedStrategy => CompileExpanded n compiler f
    end
  ∧ (strategy_policy (IsPureVector (input n))
       (unrollLoops (GetCompilerOptions compiler)) = LoopStrategy
     ↔ IsPureVector (input n) = true
       ∧ unrollLoops (GetCompilerOptions compiler) = false)
  ∧ (emits_loop (Compile n compiler) = true
     ↔ IsPureVector (input n) = true
       ∧ unrollLoops (GetCompilerOptions compiler) = false).
Proof.
  intros Hval Harg.
  assert (Hloop : emits_loop (Compile n compiler)
            = IsPureVector (input n) && negb (unrollLoops (GetCompilerOptions compiler))).
  { unfold emits_loop. rewrite (Compile_scalar _ _ _ Hval Harg).
    destruct (IsPureVector (input n)) eqn:Hpure; simpl.
    - destruct (unrollLoops (GetCompilerOptions compiler)); simpl.
      + apply CompileExpanded_emits_no_loop.
      + by apply CompileLoop_emits_loop.
    - apply CompileExpanded_emits_no_loop. }
  rewrite Hloop, (Compile_scalar _ _ _ Hval Harg).
  unfold strategy_policy.
  destruct (IsPureVector (input n)), (unrollLoops (GetCompilerOptions compiler));
    simpl; (split; [done|]); split; split; intros; try done; by destruct_and?.
Qed.


End StrategySelection.

Lemma Compile_selects_strategy_witness :
  Compile (tie_node true) (mkIRMapCompiler (mkCompilerOptions false))
      (mkIRFunctionEmitter [] 0) =
    match strategy_policy (IsPureVector (input (tie_node true))) false with
    | LoopStrategy =>
        CompileLoop (tie_node true) (mkIRMapCompiler (mkCompilerOptions false))
          (mkIRFunctionEmitter [] 0)
    | ExpandedStrategy =>
        CompileExpanded (tie_node true) (mkIRMapCompiler (mkCompilerOptions false))
          (mkIRFunctionEmitter [] 0)
    end
  ∧ (strategy_policy (IsPureVector (input (tie_node true))) false = LoopStrategy
     ↔ IsPureVector (input (tie_node true)) = true ∧ false = false)
  ∧ (emits_loop (Compile (tie_node true) (mkIRMapCompiler (mkCompilerOptions false))) = true
     ↔ IsPureVector (input (tie_node true)) = true ∧ false = false).
Proof.
  apply (Compile_selects_strategy (tie_node true)
           (mkIRMapCompiler (mkCompilerOptions false)) (mkIRFunctionEmitter [] 0));
    reflexivity.
Defined.

Section CrossPath.
Context {ValueType : Type} `{Less ValueType}.

(** C2. For every input vector [V] the node observes, the function either
    strategy emits leaves the buffers [Compute] leaves: the expanded strategy
    for every input, the loop strategy for every input it is emitted for (a
    pure vector), and hence [Compile] itself, whichever strategy it selects.
    Both initialise from element 0 and index 0, compare strictly with the
    comparison of the interpreter, and store the final best value and index
    into the two scalar output locations. On the empty input neither path
    has a result; on every other input all of them have one. *)
Theorem Compile_agrees_with_Compute (n : ExtremalValueNode) (compiler : IRMapCompiler)
    (σ : Store ValueType) (V : list ValueType) :
  GetValue (input n) σ = Some V →
  run_compiled (CompileExpanded n compiler) σ = Compute n σ
  ∧ (IsPureVector (input n) = true →
     run_compiled (CompileLoop n compiler) σ = Compute n σ)
  ∧ (out_size (val n) = 1 → out_size (argVal n) = 1 →
     run_compiled (Compile n compiler) σ = Compute n σ)
  ∧ (V ≠ [] → is_Some (Compute n σ))
  ∧ (V = [] → Compute n σ = None).
Proof.
  intros HV. split_and!.
  - by eapply run_CompileExpanded.
  - intros Hpure. by eapply run_CompileLoop.
  - intros Hval Harg. unfold run_compiled.
    rewrite (Compile_scalar n compiler _ Hval Harg).
    destruct (IsPureVector (input n)) eqn:Hpure; simpl.
    + destruct (unrollLoops (GetCompilerOptions compiler)); simpl.
      * by eapply run_CompileExpanded.
      * by eapply run_CompileLoop.
    + by eapply run_CompileExpanded.
  - intros Hne. by eapply Compute_defined.
  - intros ->. rewrite (Compute_eq _ _ _ HV). by destruct (IsMaxNode n).
Qed.

End CrossPath.

Lemma Compile_agrees_with_Compute_witness :
  run_compiled (CompileExpanded (tie_node true) (mkIRMapCompiler (mkCompilerOptions false)))
      tie_store
    = Compute (tie_node true) tie_store
  ∧ run_compiled (CompileLoop (tie_node true) (mkIRMapCompiler (mkCompilerOptions false)))
      tie_store
    = Compute (tie_node true) tie_store
  ∧ run_compiled (Compile (tie_node true) (mkIRMapCompiler (mkCompilerOptions false)))
      tie_store
    = Compute (tie_node true) tie_store.
Proof.
  destruct (Compile_agrees_with_Compute (tie_node true)
              (mkIRMapCompiler (mkCompilerOptions false)) tie_store [3; 5; 5; 2]%Z)
    as (Hexpanded & Hloop & Hcompile & _).
  - reflexivity.
  - split_and!; [exact Hexpanded|apply Hloop; reflexivity|apply Hcompile; reflexivity].
Defined.

(** The specification's examples on the compiled path: the tie [3, 5, 5, 2]
    and the singleton [7], under both strategies. *)
Example compiled_tie :
  outputs_of (tie_node true)
    (run_compiled (CompileLoop (tie_node true) (mkIRMapCompiler (mkCompilerOptions false)))
       tie_store) = (Some [CVal 5%Z], Some [CInt 1])
  ∧ outputs_of (tie_node true)
      (run_compiled (CompileExpanded (tie_node true) (mkIRMapCompiler (mkCompilerOptions true)))
         tie_store) = (Some [CVal 5%Z], Some [CInt 1]).
Proof. split; vm_compute; reflexivity. Qed.

Example compiled_singleton :
  let σ : Store Z := {[ (7, 0) := [CVal 7%Z] ]} in
  let compiler := mkIRMapCompiler (mkCompilerOptions false) in
  outputs_of (singleton_node false) (Compute (singleton_node false) σ)
    = (Some [CVal 7%Z], Some [CInt 0])
  ∧ outputs_of (singleton_node false)
      (run_compiled (CompileLoop (singleton_node false) compiler) σ)
    = (Some [CVal 7%Z], Some [CInt 0])
  ∧ outputs_of (singleton_node false)
      (run_compiled (CompileExpanded (singleton_node false) compiler) σ)
    = (Some [CVal 7%Z], Some [CInt 0]).
Proof. split_and!; vm_compute; reflexivity. Qed.

(** * Further properties of the code *)

(** ** [Compute] *)

Section ComputeFurther.
Context {ValueType : Type} `{Less ValueType}.

Lemma extremal_element_lt (max : bool) (V : list ValueType) :
  V ≠ [] → extremal_element max V < length V.
Proof.
  destruct V as [|x l]; [done|]. intros _. rewrite extremal_element_scan.
  pose proof (scan_from_lt (better_of max) l x 0 1). simpl. lia.
Qed.

(** X1. Whatever [operator<] is, a strict order or not: on the empty input
    [Compute] has no result, and on every other input it has one, in which
    the best-value port holds the element of the input at some position [i]
    and the best-index port holds that same [i], converted to [int]; when the
    input has at most 2^31 elements the port holds [i] itself, a valid
    position of the input. *)
Theorem Compute_value_at_index (n : ExtremalValueNode) (σ : Store ValueType)
    (V : list ValueType) :
  GetValue (input n) σ = Some V →
  (V = [] ∧ Compute n σ = None)
  ∨ ∃ i v, i < length V
      ∧ V !! i = Some v
      ∧ Compute n σ
        = Some (<[argVal_id n := [CInt (static_cast_int (Z.of_nat i))]]>
                  (<[val_id n := [CVal v]]> σ))
      ∧ ((Z.of_nat (length V) ≤ INT_MAX + 1)%Z →
         static_cast_int (Z.of_nat i) = Z.of_nat i).
Proof.
  intros HV. rewrite (Compute_eq _ _ _ HV).
  destruct (decide (V = [])) as [->|Hne].
  - left. split; [done|]. by destruct (IsMaxNode n).
  - right. pose proof (extremal_element_lt (IsMaxNode n) V Hne) as Hlt.
    destruct (lookup_lt_is_Some_2 _ _ Hlt) as [v Hv].
    exists (extremal_element (IsMaxNode n) V), v.
    split_and!; [done|done|by rewrite Hv|].
    intros Hsize. apply static_cast_int_id. unfold INT_MAX in *. lia.
Qed.

Lemma GetValue_insert_other (observer : InputPort) (p : PortId)
    (values : list (Cell ValueType)) (σ : Store ValueType) :
  (∀ e, e ∈ GetPortElements observer → ReferencedPort e ≠ p) →
  GetValue observer (<[p := values]> σ) = GetValue observer σ.
Proof.
  intros Hobs. unfold GetValue. apply Forall_mapM_ext, Forall_forall.
  intros e He. unfold element_value.
  by rewrite lookup_insert_ne by (apply not_eq_sym, Hobs, He).
Qed.

(** [Compute] on a store that differs in buffers the node does not observe. *)
Lemma Compute_insert_other (n : ExtremalValueNode) (p : PortId)
    (values : list (Cell ValueType)) (σ : Store ValueType) :
  (∀ e, e ∈ GetPortElements (input n) → ReferencedPort e ≠ p) →
  Compute n (<[p := values]> σ)
  = (V ← GetValue (input n) σ;
     v ← V !! extremal_element (IsMaxNode n) V;
     Some (<[argVal_id n :=
               [CInt (static_cast_int (Z.of_nat (extremal_element (IsMaxNode n) V)))]]>
             (<[val_id n := [CVal v]]> (<[p := values]> σ)))).
Proof.
  intros Hobs. pose proof (GetValue_insert_other _ p values σ Hobs) as HV.
  destruct (GetValue (input n) σ) as [V|] eqn:HVσ.
  - by rewrite (Compute_eq _ _ _ HV).
  - unfold Compute. by rewrite HV.
Qed.

Lemma Compute_unfold (n : ExtremalValueNode) (σ : Store ValueType) :
  Compute n σ
  = (V ← GetValue (input n) σ;
     v ← V !! extremal_element (IsMaxNode n) V;
     Some (<[argVal_id n :=
               [CInt (static_cast_int (Z.of_nat (extremal_element (IsMaxNode n) V)))]]>
             (<[val_id n := [CVal v]]> σ))).
Proof.
  destruct (GetValue (input n) σ) as [V|] eqn:HV.
  - by rewrite (Compute_eq _ _ _ HV).
  - unfold Compute. by rewrite HV.
Qed.

(** X2. Evaluating a node again changes nothing: when the input is not
    linked to the node's own outputs, [Compute] on the store [Compute] left
    returns that store. *)
Theorem Compute_idempotent (n : ExtremalValueNode) (σ σ' : Store ValueType) :
  unlinked (input n) n →
  Compute n σ = Some σ' →
  Compute n σ' = Some σ'.
Proof.
  intros Hun HC. rewrite Compute_unfold in HC.
  destruct (GetValue (input n) σ) as [V|] eqn:HV; [|done]. simpl in HC.
  destruct (V !! _) as [v|] eqn:Hv; [|done]. simpl in HC. injection HC as <-.
  rewrite Compute_insert_other by (intros e He; apply (Hun e He)).
  rewrite GetValue_insert_other by (intros e He; apply (Hun e He)).
  rewrite HV. simpl. rewrite Hv. simpl. f_equal.
  apply map_eq. intros p. rewrite !lookup_insert.
  by repeat case_decide.
Qed.

(** X3. Two nodes that do not observe each other can be evaluated in either
    order: both orders leave the same store, or neither has a result. *)
Theorem Compute_commutes (n1 n2 : ExtremalValueNode) (σ : Store ValueType) :
  GetId n1 ≠ GetId n2 →
  unlinked (input n1) n2 →
  unlinked (input n2) n1 →
  (Compute n1 σ ≫= Compute n2) = (Compute n2 σ ≫= Compute n1).
Proof.
  intros Hid H12 H21.
  assert (Hstep : ∀ a b : ExtremalValueNode, unlinked (input b) a →
    (Compute a σ ≫= Compute b)
    = (Va ← GetValue (input a) σ;
       va ← Va !! extremal_element (IsMaxNode a) Va;
       Vb ← GetValue (input b) σ;
       vb ← Vb !! extremal_element (IsMaxNode b) Vb;
       Some (<[argVal_id b :=
                 [CInt (static_cast_int (Z.of_nat (extremal_element (IsMaxNode b) Vb)))]]>
               (<[val_id b := [CVal vb]]>
                  (<[argVal_id a :=
                       [CInt (static_cast_int
                                (Z.of_nat (extremal_element (IsMaxNode a) Va)))]]>
                     (<[val_id a := [CVal va]]> σ)))))).
  { intros a b Hun. rewrite (Compute_unfold a).
    destruct (GetValue (input a) σ) as [Va|]; [simpl|done].
    destruct (Va !! _) as [va|]; [simpl|done].
    rewrite Compute_insert_other by (intros e He; apply (Hun e He)).
    rewrite GetValue_insert_other by (intros e He; apply (Hun e He)).
    done. }
  rewrite (Hstep n1 n2 H21), (Hstep n2 n1 H12).
  destruct (GetValue (input n1) σ) as [V1|]; simpl;
    destruct (GetValue (input n2) σ) as [V2|]; simpl; try done.
  - destruct (V1 !! _) as [v1|]; simpl; destruct (V2 !! _) as [v2|]; simpl; try done.
    f_equal. unfold val_id, argVal_id. apply map_eq. intros p.
    rewrite !lookup_insert. repeat case_decide; simplify_eq; done.
  - by destruct (V1 !! _).
  - by destruct (V2 !! _).
Qed.

End ComputeFurther.

Section ScanFurther.
Context {T : Type} (better : T → T → bool).

Lemma scan_best_app (l w : list T) : ∀ best,
  scan_best better best (l ++ w) = scan_best better (scan_best better best l) w.
Proof.
  induction l as [|x l IH]; intros best; simpl; [done|].
  by destruct (better x best).
Qed.

Lemma scan_from_app (l w : list T) : ∀ best result first,
  scan_from better best result first (l ++ w)
  = scan_from better (scan_best better best l)
      (scan_from better best result first l) (first + length l) w.
Proof.
  induction l as [|x l IH]; intros best result first; simpl.
  - by rewrite Nat.add_0_r.
  - replace (first + S (length l)) with (S first + length l) by lia.
    by destruct (better x best).
Qed.

(** Elements that do not beat the best so far leave the scan where it is. *)
Lemma scan_none_better (w : list T) : ∀ best result first,
  (∀ x, x ∈ w → better x best = false) →
  scan_from better best result first w = result ∧ scan_best better best w = best.
Proof.
  induction w as [|x w IH]; intros best result first Hw; simpl; [done|].
  rewrite (Hw x) by apply list_elem_of_here.
  apply IH. intros y Hy. apply Hw. by apply list_elem_of_further.
Qed.

End ScanFurther.

Section ComputeAppend.
Context {ValueType : Type} `{Less ValueType}.

(** X4. Observing more elements after the input changes nothing as long as
    none of them beats the result: when a node observes [V] and reports the
    value [m], a node of the same variant that observes [V ++ W], with no
    element of [W] strictly greater (max) or strictly less (min) than [m],
    reports the same value and the same index. *)
Theorem Compute_append_stable (n1 n2 : ExtremalValueNode) (σ : Store ValueType)
    (V W : list ValueType) (m : ValueType) :
  IsMaxNode n2 = IsMaxNode n1 →
  GetValue (input n1) σ = Some V →
  GetValue (input n2) σ = Some (V ++ W) →
  val_output n1 σ = Some [CVal m] →
  (∀ w, w ∈ W → better_of (IsMaxNode n1) w m = false) →
  val_output n2 σ = val_output n1 σ ∧ argVal_output n2 σ = argVal_output n1 σ.
Proof.
  intros Hmax HV HVW Hm HW.
  rewrite val_output_eq, HV in Hm. simpl in Hm.
  destruct V as [|v0 vs]; [by destruct (IsMaxNode n1)|].
  rewrite !val_output_eq, !argVal_output_eq, HV, HVW, Hmax. simpl.
  pose proof (scan_from_best (better_of (IsMaxNode n1)) vs [v0] v0 0 eq_refl) as Hbest.
  simpl in Hbest.
  rewrite extremal_element_scan, Hbest in Hm. simpl in Hm. injection Hm as Hm.
  assert (Hsame : extremal_element (IsMaxNode n1) (v0 :: vs ++ W)
                  = extremal_element (IsMaxNode n1) (v0 :: vs)).
  { rewrite !extremal_element_scan, scan_from_app.
    apply scan_none_better. by rewrite Hm. }
  change ((v0 :: vs) ++ W) with (v0 :: vs ++ W). rewrite Hsame.
  assert (Hlook : (v0 :: vs ++ W) !! extremal_element (IsMaxNode n1) (v0 :: vs)
                  = (v0 :: vs) !! extremal_element (IsMaxNode n1) (v0 :: vs)).
  { change (v0 :: vs ++ W) with ((v0 :: vs) ++ W).
    apply lookup_app_l, extremal_element_lt. done. }
  by rewrite Hlook.
Qed.

End ComputeAppend.

Section Duality.
Context {T : Type} (H : Less T).

Lemma max_element_from_flipped (l : list T) : ∀ best result first,
  @max_element_from T (flipped H) best result first l
  = @min_element_from T H best result first l.
Proof.
  induction l as [|x l IH]; intros best result first; simpl; [done|].
  change (@less T (flipped H) best x) with (@less T H x best).
  by rewrite !IH.
Qed.

Lemma min_element_from_flipped (l : list T) : ∀ best result first,
  @min_element_from T (flipped H) best result first l
  = @max_element_from T H best result first l.
Proof.
  induction l as [|x l IH]; intros best result first; simpl; [done|].
  change (@less T (flipped H) x best) with (@less T H best x).
  by rewrite !IH.
Qed.

(** X5. The two template instances mirror each other: the max node under the
    comparison read from right to left is the min node, and the min node
    under it is the max node. They leave the same store on every input, or
    neither has a result. *)
Theorem Compute_flipped (n : ExtremalValueNode) (σ : Store T) :
  @Compute T (flipped H) (with_variant true n) σ = @Compute T H (with_variant false n) σ
  ∧ @Compute T (flipped H) (with_variant false n) σ
    = @Compute T H (with_variant true n) σ.
Proof.
  unfold Compute, with_variant, max_element, min_element. simpl.
  split; destruct (GetValue (input n) σ) as [[|v0 vs]|]; simpl; try done;
    by rewrite ?max_element_from_flipped, ?min_element_from_flipped.
Qed.

End Duality.

Lemma Compute_value_at_index_witness :
  ([3; 5; 5; 2]%Z = [] ∧ Compute (tie_node true) tie_store = None)
  ∨ ∃ i v, i < 4
      ∧ [3; 5; 5; 2]%Z !! i = Some v
      ∧ Compute (tie_node true) tie_store
        = Some (<[argVal_id (tie_node true) := [CInt (static_cast_int (Z.of_nat i))]]>
                  (<[val_id (tie_node true) := [CVal v]]> tie_store))
      ∧ ((Z.of_nat 4 ≤ INT_MAX + 1)%Z → static_cast_int (Z.of_nat i) = Z.of_nat i).
Proof.
  apply (Compute_value_at_index (tie_node true) tie_store [3; 5; 5; 2]%Z).
  reflexivity.
Defined.

Lemma Compute_idempotent_witness :
  Compute (tie_node true)
    (<[argVal_id (tie_node true) := [CInt 1]]>
       (<[val_id (tie_node true) := [CVal 5%Z]]> tie_store))
  = Some (<[argVal_id (tie_node true) := [CInt 1]]>
            (<[val_id (tie_node true) := [CVal 5%Z]]> tie_store)).
Proof.
  apply (Compute_idempotent (tie_node true) tie_store).
  - intros e He. apply (bool_decide_unpack _).
    revert e He. apply Forall_forall. by repeat constructor.
  - reflexivity.
Defined.

Lemma Compute_commutes_witness :
  (Compute (tie_node true) tie_store ≫= Compute tie_min_node)
  = (Compute tie_min_node tie_store ≫= Compute (tie_node true)).
Proof.
  apply (Compute_commutes (tie_node true) tie_min_node tie_store).
  - simpl. lia.
  - intros e He. apply (bool_decide_unpack _).
    revert e He. apply Forall_forall. by repeat constructor.
  - intros e He. apply (bool_decide_unpack _).
    revert e He. apply Forall_forall. by repeat constructor.
Defined.

Lemma Compute_append_stable_witness :
  val_output (tie_node true) tie_store = val_output prefix_node tie_store
  ∧ argVal_output (tie_node true) tie_store = argVal_output prefix_node tie_store.
Proof.
  apply (Compute_append_stable prefix_node (tie_node true) tie_store
           [3; 5]%Z [5; 2]%Z 5%Z).
  - reflexivity.
  - reflexivity.
  - reflexivity.
  - reflexivity.
  - intros w Hw. apply (bool_decide_unpack _).
    revert w Hw. apply Forall_forall. by repeat constructor.
Defined.

(** ** The compile pass, from any state of the builder *)

Section CompileFurther.
Context {ValueType : Type} `{Less ValueType}.

Lemma CompileExpanded_emits_from (n : ExtremalValueNode) (compiler : IRMapCompiler)
    (e0 : PortElement) (rest : list PortElement) (f : IRFunctionEmitter) :
  GetPortElements (input n) = e0 :: rest →
  CompileExpanded n compiler f
  = (inr (), mkIRFunctionEmitter
               (emitted f ++ expanded_code n (nextTemp f) e0 rest)
               (S (S (S (S (S (nextTemp f))) + 2 * length rest)))).
Proof.
  intros Hel. destruct f as [code t]. unfold CompileExpanded. cbv zeta.
  assert (He0 : emit_GetInputElement (input n) 0 = emit_ret e0).
  { unfold emit_GetInputElement, GetInputElement. by rewrite Hel. }
  assert (Hcount : Size (input n) - 1 = length rest).
  { unfold Size. rewrite Hel. simpl. lia. }
  rewrite He0, Hcount.
  do 6 (erewrite emit_bind_ok by reflexivity; cbv beta).
  erewrite emit_bind_ok;
    [|apply (for_each_index_emits n t (S t) rest 1); by rewrite Hel].
  cbv beta.
  do 3 (erewrite emit_bind_ok by reflexivity; cbv beta).
  unfold function_Store, emit, expanded_code. cbn [emitted nextTemp].
  rewrite <-!app_assoc. reflexivity.
Qed.

Lemma CompileLoop_emits_from (n : ExtremalValueNode) (compiler : IRMapCompiler)
    (e0 : PortElement) (rest : list PortElement) (f : IRFunctionEmitter) :
  GetPortElements (input n) = e0 :: rest →
  CompileLoop n compiler f
  = (inr (), mkIRFunctionEmitter
               (emitted f ++ loop_code n (nextTemp f) e0 rest)
               (S (S (S (S (S (S (S (S (nextTemp f)))))))))).
Proof.
  intros Hel. destruct f as [code t].
  unfold CompileLoop, compiler_EnsureInputEmitted, Size. rewrite Hel.
  unfold mbind, Emit_bind, emit_bind. simpl.
  unfold function_Store, emit. simpl. rewrite <-!app_assoc. reflexivity.
Qed.

Lemma CompileExpanded_empty_from (n : ExtremalValueNode) (compiler : IRMapCompiler)
    (f : IRFunctionEmitter) :
  GetPortElements (input n) = [] →
  CompileExpanded n compiler f
  = (inl indexOutOfRange,
     mkIRFunctionEmitter
       (emitted f ++ [IVariable (nextTemp f) ElementType "bestVal";
                      IVariable (S (nextTemp f)) Int32 "bestArgVal"])
       (S (S (nextTemp f)))).
Proof.
  intros Hel. destruct f as [code t]. unfold CompileExpanded. cbv zeta.
  assert (He0 : emit_GetInputElement (input n) 0 = throw indexOutOfRange).
  { unfold emit_GetInputElement, GetInputElement. by rewrite Hel. }
  rewrite He0.
  do 2 (erewrite emit_bind_ok by reflexivity; cbv beta).
  erewrite emit_bind_throws by reflexivity.
  cbn [emitted nextTemp]. by rewrite <-!app_assoc.
Qed.

(** The instructions of the expanded strategy, run on any machine. *)
Lemma exec_expanded_code (n : ExtremalValueNode) (V : list ValueType)
    (e0 : PortElement) (rest : list PortElement) (t : nat) (m : Machine ValueType) :
  GetPortElements (input n) = e0 :: rest →
  GetValue (input n) (ports m) = Some V →
  ports <$> exec_block exec (expanded_code n t e0 rest) m = Compute n (ports m).
Proof.
  intros Hel HV. set (σ := ports m) in *.
  assert (HV' := HV). unfold GetValue in HV'. rewrite Hel in HV'.
  apply mapM_Some_1 in HV'. inversion HV' as [|? v0 ? vs He0 Hrest]; subst.
  destruct (element_value_cell _ _ _ He0) as (buffer & Hbuf & Hcell).
  rewrite (Compute_scan n σ v0 vs HV).
  unfold expanded_code. rewrite exec_block_app.
  set (m0 := mkMachine σ
    (<[S t := mkLocalSlot Int32 (Some (CInt 0))]>
       (<[t := mkLocalSlot ElementType (Some (CVal v0))]>
          (<[S t := mkLocalSlot Int32 None]>
             (<[t := mkLocalSlot ElementType None]> (locals m)))))
    (<[S (S t) := CVal v0]> (temps m)) : Machine ValueType).
  assert (Hpro : exec_block exec
    [IVariable t ElementType "bestVal"; IVariable (S t) Int32 "bestArgVal";
     ILoadPortElement (S (S t)) e0; IStore (LocalVariable t) (Temp (S (S t)));
     IStore (LocalVariable (S t)) (Literal 0)] m = Some m0).
  { rewrite exec_block_cons, exec_IVariable. cbn [mbind option_bind].
    rewrite exec_block_cons, exec_IVariable. cbn [mbind option_bind].
    rewrite exec_block_cons,
      (exec_ILoadPortElement (S (S t)) e0 _ buffer (CVal v0)) by done.
    cbn [mbind option_bind].
    rewrite exec_block_cons.
    erewrite (exec_IStore_local t (Temp (S (S t))) _ ElementType None (CVal v0) (CVal v0));
      [|simpl; apply lookup_insert_eq
       |simpl; rewrite lookup_insert_ne by lia; apply lookup_insert_eq
       |done].
    cbn [mbind option_bind].
    rewrite exec_block_cons.
    erewrite (exec_IStore_local (S t) (Literal 0) _ Int32 None (CInt 0) (CInt 0));
      [|done
       |simpl; rewrite lookup_insert_ne by lia; apply lookup_insert_eq
       |done].
    done. }
  rewrite Hpro. cbn [mbind option_bind].
  assert (Hm0 : holds σ t (S t) v0 (static_cast_int (Z.of_nat 0)) m0).
  { split; [done| |].
    - unfold m0. simpl. rewrite lookup_insert_ne by lia. apply lookup_insert_eq.
    - unfold m0. simpl. apply lookup_insert_eq. }
  destruct (exec_expanded_steps n σ t (S t) ltac:(lia) rest vs Hrest
              1 (S (S (S t))) v0 0 m0 Hm0) as (m' & Hsteps & Hm').
  rewrite exec_block_app, Hsteps. cbn [mbind option_bind].
  by apply exec_epilogue.
Qed.

(** The instructions of the loop strategy, run on any machine. *)
Lemma exec_loop_code (n : ExtremalValueNode) (V : list ValueType)
    (e0 : PortElement) (rest : list PortElement) (t : nat) (m : Machine ValueType) :
  IsPureVector (input n) = true →
  GetPortElements (input n) = e0 :: rest →
  GetValue (input n) (ports m) = Some V →
  ports <$> exec_block exec (loop_code n t e0 rest) m = Compute n (ports m).
Proof.
  intros Hpure Hel HV. set (σ := ports m) in *.
  destruct (IsPureVector_block _ Hpure) as (e0' & rest' & Hel' & Hblock).
  rewrite Hel in Hel'. injection Hel' as <- <-.
  assert (HV' := HV). unfold GetValue in HV'. rewrite Hel in HV'.
  apply mapM_Some_1 in HV'.
  assert (Hcells : ∃ buffer, σ !! ReferencedPort e0 = Some buffer
            ∧ ∀ j v, V !! j = Some v → buffer !! (GetIndex e0 + j) = Some (CVal v)).
  { inversion HV' as [|? v0 ? vs He0 _]; subst.
    destruct (element_value_cell _ _ _ He0) as (buffer & Hbuf & _).
    exists buffer. split; [done|]. intros j v Hj.
    destruct (Forall2_lookup_r _ _ _ _ _ HV' Hj) as (e & He & Hev).
    destruct (Hblock j e He) as [Hp Hi].
    destruct (element_value_cell _ _ _ Hev) as (buffer' & Hbuf' & Hcell).
    rewrite Hp, Hbuf in Hbuf'. injection Hbuf' as <-. by rewrite <-Hi. }
  destruct Hcells as (buffer & Hbuf & Hcells).
  inversion HV' as [|? v0 ? vs He0 Hrest]; subst.
  rewrite (Compute_scan n σ v0 vs HV).
  set (m0 := mkMachine σ
    (<[S t := mkLocalSlot Int32 (Some (CInt 0))]>
       (<[t := mkLocalSlot ElementType (Some (CVal v0))]>
          (<[S t := mkLocalSlot Int32 None]>
             (<[t := mkLocalSlot ElementType None]> (locals m)))))
    (<[S (S t) := CVal v0]> (temps m)) : Machine ValueType).
  assert (Hm0 : holds σ t (S t) v0 (static_cast_int (Z.of_nat 0)) m0).
  { split; [done| |].
    - unfold m0. simpl. rewrite lookup_insert_ne by lia. apply lookup_insert_eq.
    - unfold m0. simpl. apply lookup_insert_eq. }
  destruct (for_loop_scan n σ (ReferencedPort e0) (GetIndex e0) t (S t)
              (S (S (S t))) (S (S (S (S t)))) (S (S (S (S (S t))))) buffer
              ltac:(lia) ltac:(lia) ltac:(lia) ltac:(lia) Hbuf
              vs 1 (length vs) v0 0 m0 ltac:(lia))
    as (m' & Hloop & Hm'); [|exact Hm0|].
  { intros j v Hj. apply (Hcells (S j) v). exact Hj. }
  assert (Hpro : exec_block exec
    [IVariable t ElementType "bestVal"; IVariable (S t) Int32 "bestArgVal";
     IValueAt (S (S t)) (PortVariable (ReferencedPort e0) (GetIndex e0)) (Literal 0);
     IStore (LocalVariable t) (Temp (S (S t)));
     IStore (LocalVariable (S t)) (Literal 0)] m = Some m0).
  { rewrite exec_block_cons, exec_IVariable. cbn [mbind option_bind].
    rewrite exec_block_cons, exec_IVariable. cbn [mbind option_bind].
    rewrite exec_block_cons.
    erewrite (exec_IValueAt (S (S t)) _ _ (Literal 0) _ 0 buffer (CVal v0));
      [|done|done|by apply (Hcells 0 v0)].
    cbn [mbind option_bind].
    rewrite exec_block_cons.
    erewrite (exec_IStore_local t (Temp (S (S t))) _ ElementType None (CVal v0) (CVal v0));
      [|simpl; apply lookup_insert_eq
       |simpl; rewrite lookup_insert_ne by lia; apply lookup_insert_eq
       |done].
    cbn [mbind option_bind].
    rewrite exec_block_cons.
    erewrite (exec_IStore_local (S t) (Literal 0) _ Int32 None (CInt 0) (CInt 0));
      [|done
       |simpl; rewrite lookup_insert_ne by lia; apply lookup_insert_eq
       |done].
    done. }
  unfold loop_code.
  rewrite exec_block_app, Hpro. cbn [mbind option_bind].
  rewrite exec_block_app, exec_block_cons. cbn [exec].
  replace (Z.to_nat (Z.of_nat (S (length rest)) - 1)) with (length vs)
    by (apply Forall2_length in Hrest; lia).
  replace (S (length rest)) with (1 + length vs)
    by (apply Forall2_length in Hrest; lia).
  change 1%Z with (Z.of_nat 1) at 1.
  rewrite Hloop. cbn [mbind option_bind exec_block].
  by apply exec_epilogue.
Qed.

Lemma GetValue_elements (observer : InputPort) (σ : Store ValueType)
    (V : list ValueType) :
  GetValue observer σ = Some V → length V = Size observer.
Proof.
  intros HV. unfold GetValue in HV. apply mapM_Some_1, Forall2_length in HV.
  unfold Size. lia.
Qed.

(** [Compile] from any function being built, run from any machine: the
    instructions it appends compute what [Compute] computes. *)
Lemma Compile_appends_Compute (n : ExtremalValueNode) (compiler : IRMapCompiler)
    (f : IRFunctionEmitter) (m : Machine ValueType) (V : list ValueType) :
  out_size (val n) = 1 →
  out_size (argVal n) = 1 →
  GetValue (input n) (ports m) = Some V →
  V ≠ [] →
  ∃ code k,
    Compile n compiler f
    = (inr (), mkIRFunctionEmitter (emitted f ++ code) (nextTemp f + k))
    ∧ ports <$> exec_block exec code m = Compute n (ports m).
Proof.
  intros Hval Harg HV Hne.
  destruct (GetPortElements (input n)) as [|e0 rest] eqn:Hel.
  { apply GetValue_elements in HV. unfold Size in HV. rewrite Hel in HV.
    by destruct V. }
  rewrite (Compile_scalar n compiler f Hval Harg).
  destruct (IsPureVector (input n) && _) eqn:Hloop.
  - apply andb_true_iff in Hloop as [Hpure _].
    exists (loop_code n (nextTemp f) e0 rest), 8. split.
    + rewrite (CompileLoop_emits_from n compiler e0 rest f Hel).
      do 2 f_equal. lia.
    + by eapply exec_loop_code.
  - exists (expanded_code n (nextTemp f) e0 rest), (5 + 2 * length rest). split.
    + rewrite (CompileExpanded_emits_from n compiler e0 rest f Hel).
      do 2 f_equal. lia.
    + by eapply exec_expanded_code.
Qed.

(** X6. Two nodes compiled one after the other into the same function run
    like the two nodes evaluated one after the other: when the first node has
    a result and the second node then observes a non-empty input, the function
    built by [Compile] of the first followed by [Compile] of the second leaves
    the buffers that [Compute] of the second leaves on the result of the
    first. It holds for every setting of the compiler and also when the second
    node reads the outputs of the first. *)
Theorem Compile_sequence (n1 n2 : ExtremalValueNode) (compiler : IRMapCompiler)
    (σ σ1 : Store ValueType) (V2 : list ValueType) :
  out_size (val n1) = 1 → out_size (argVal n1) = 1 →
  out_size (val n2) = 1 → out_size (argVal n2) = 1 →
  Compute n1 σ = Some σ1 →
  GetValue (input n2) σ1 = Some V2 →
  V2 ≠ [] →
  run_compiled (Compile n1 compiler;; Compile n2 compiler) σ = Compute n2 σ1
  ∧ is_Some (Compute n2 σ1).
Proof.
  intros Hv1 Ha1 Hv2 Ha2 HC1 HV2 Hne2. split; [|by eapply Compute_defined].
  assert (∃ V1, GetValue (input n1) σ = Some V1 ∧ V1 ≠ []) as (V1 & HV1 & Hne1).
  { rewrite Compute_unfold in HC1.
    destruct (GetValue (input n1) σ) as [V1|]; [|done]. exists V1. split; [done|].
    intros ->. done. }
  set (m0 := mkMachine σ ∅ ∅ : Machine ValueType).
  destruct (Compile_appends_Compute n1 compiler (mkIRFunctionEmitter [] 0) m0 V1
              Hv1 Ha1 HV1 Hne1) as (code1 & k1 & Hc1 & Hrun1).
  cbn [ports m0] in Hrun1. rewrite HC1 in Hrun1.
  destruct (exec_block exec code1 m0) as [m1|] eqn:Hm1; [|done].
  simpl in Hrun1. injection Hrun1 as Hσ1.
  rewrite <-Hσ1 in HV2.
  destruct (Compile_appends_Compute n2 compiler
              (mkIRFunctionEmitter ([] ++ code1) (0 + k1)) m1 V2
              Hv2 Ha2 HV2 Hne2) as (code2 & k2 & Hc2 & Hrun2).
  unfold run_compiled, mbind, Emit_bind, emit_bind.
  cbn [emitted nextTemp] in Hc1, Hc2. rewrite Hc1, Hc2.
  cbn [emitted app]. fold m0. rewrite exec_block_app, Hm1. cbn [mbind option_bind].
  by rewrite Hrun2, Hσ1.
Qed.

Lemma code_size_app (a b : list Instr) :
  code_size (a ++ b) = code_size a + code_size b.
Proof.
  unfold code_size. induction a as [|i a IH]; [done|].
  cbn [app foldr]. rewrite IH. lia.
Qed.

Lemma code_size_expanded_steps (n : ExtremalValueNode) (xv xi : nat)
    (rest : list PortElement) (i t : nat) :
  code_size (expanded_steps n xv xi i t rest) = 5 * length rest.
Proof.
  revert i t. induction rest as [|e rest IH]; intros i t; [done|].
  cbn [expanded_steps]. rewrite code_size_app, IH. simpl. lia.
Qed.

(** X7. The size of the code [Compile] emits, one instruction for each
    emitting call to the function builder. For scalar output ports and a
    non-empty input, [Compile] succeeds from any function being built, keeps
    the instructions already there and appends its own. The loop strategy
    appends 15 instructions and names 8 new values whatever the size of the
    input; the expanded strategy appends [5 * N + 4] instructions and names
    [2 * N + 3] new values for an input of [N] elements. Instructions inside
    the bodies of conditionals and loops are counted. *)
Theorem Compile_code_size (n : ExtremalValueNode) (compiler : IRMapCompiler)
    (f : IRFunctionEmitter) :
  out_size (val n) = 1 →
  out_size (argVal n) = 1 →
  Size (input n) ≠ 0 →
  ∃ code,
    Compile n compiler f
    = (inr (), mkIRFunctionEmitter
                 (emitted f ++ code)
                 (nextTemp f
                  + (if IsPureVector (input n)
                        && negb (unrollLoops (GetCompilerOptions compiler))
                     then 8 else 2 * Size (input n) + 3)))
    ∧ code_size code
      = (if IsPureVector (input n)
            && negb (unrollLoops (GetCompilerOptions compiler))
         then 15 else 5 * Size (input n) + 4).
Proof.
  intros Hval Harg Hsize.
  rewrite (Compile_scalar n compiler f Hval Harg).
  destruct (IsPureVector (input n) && _); unfold Size in *;
    (destruct (GetPortElements (input n)) as [|e0 rest] eqn:Hel; [done|]).
  - exists (loop_code n (nextTemp f) e0 rest). split.
    + rewrite (CompileLoop_emits_from n compiler e0 rest f Hel).
      do 2 f_equal. lia.
    + reflexivity.
  - exists (expanded_code n (nextTemp f) e0 rest). split.
    + rewrite (CompileExpanded_emits_from n compiler e0 rest f Hel).
      do 2 f_equal. simpl. lia.
    + unfold expanded_code.
      rewrite !code_size_app, code_size_expanded_steps. simpl. lia.
Qed.

(** X8. The [unrollLoops] option changes the code and never the result: for
    scalar output ports and an input the node can read, the functions
    [Compile] builds under any two settings of the compiler leave the same
    buffers. *)
Theorem Compile_unroll_invariant (n : ExtremalValueNode)
    (compiler compiler' : IRMapCompiler) (σ : Store ValueType)
    (V : list ValueType) :
  out_size (val n) = 1 →
  out_size (argVal n) = 1 →
  GetValue (input n) σ = Some V →
  run_compiled (Compile n compiler) σ = run_compiled (Compile n compiler') σ.
Proof.
  intros Hval Harg HV.
  assert (Hrun : ∀ c, run_compiled (Compile n c) σ = Compute n σ).
  { intros c. unfold run_compiled.
    rewrite (Compile_scalar n c _ Hval Harg).
    destruct (IsPureVector (input n)) eqn:Hpure; simpl.
    - destruct (unrollLoops (GetCompilerOptions c)); simpl.
      + by eapply run_CompileExpanded.
      + by eapply run_CompileLoop.
    - by eapply run_CompileExpanded. }
  by rewrite !Hrun.
Qed.

End CompileFurther.

Lemma Compile_sequence_witness :
  run_compiled
    (Compile (tie_node true) (mkIRMapCompiler (mkCompilerOptions false));;
     Compile downstream_node (mkIRMapCompiler (mkCompilerOptions false)))
    tie_store
  = Compute downstream_node tie_store_after
  ∧ is_Some (Compute downstream_node tie_store_after).
Proof.
  apply (Compile_sequence (tie_node true) downstream_node
           (mkIRMapCompiler (mkCompilerOptions false))
           tie_store tie_store_after [5%Z]).
  - reflexivity.
  - reflexivity.
  - reflexivity.
  - reflexivity.
  - reflexivity.
  - reflexivity.
  - discriminate.
Defined.

Lemma Compile_code_size_witness :
  ∃ code,
    Compile (tie_node true) (mkIRMapCompiler (mkCompilerOptions true))
      (mkIRFunctionEmitter [] 0)
    = (inr (), mkIRFunctionEmitter ([] ++ code) (0 + 11))
    ∧ code_size code = 24.
Proof.
  apply (Compile_code_size (tie_node true)
           (mkIRMapCompiler (mkCompilerOptions true)) (mkIRFunctionEmitter [] 0)).
  - reflexivity.
  - reflexivity.
  - vm_compute. discriminate.
Defined.

Lemma Compile_unroll_invariant_witness :
  run_compiled (Compile (tie_node true) (mkIRMapCompiler (mkCompilerOptions false)))
    tie_store
  = run_compiled (Compile (tie_node true) (mkIRMapCompiler (mkCompilerOptions true)))
      tie_store.
Proof.
  apply (Compile_unroll_invariant (tie_node true)
           (mkIRMapCompiler (mkCompilerOptions false))
           (mkIRMapCompiler (mkCompilerOptions true))
           tie_store [3; 5; 5; 2]%Z).
  - reflexivity.
  - reflexivity.
  - reflexivity.
Defined.

(** ** Graph copy and serialization, continued *)

Section CopyFurther.
Context {ValueType : Type} `{Less ValueType} `{PortNames}.

(** [Copy], with the re-resolved input named. *)
Lemma Copy_eq (this newNode : ExtremalValueNode) (t t' : ModelTransformer) :
  Copy this t = Some (newNode, t') →
  ∃ elements,
    TransformPortElements t (GetPortElements (input this)) = Some elements
    ∧ newNode = mkExtremalValueNode (nextId t) (IsMaxNode this)
                  (mkInputPort inputPortName elements)
                  (mkOutputPort valPortName 1) (mkOutputPort argValPortName 1)
    ∧ t' = mkModelTransformer (newModel t ++ [newNode]) (S (nextId t))
             (<[argVal_id this := (nextId t, 1)]>
                (<[val_id this := (nextId t, 0)]> (portMap t))).
Proof.
  intros HCopy.
  assert (Hcopy : Copy_as (IsMaxNode this) this t = Some (newNode, t')).
  { unfold Copy, ArgMaxNode_Copy, ArgMinNode_Copy in HCopy. by destruct (IsMaxNode this). }
  clear HCopy. unfold Copy_as in Hcopy.
  destruct (TransformPortElements t (GetPortElements (input this)))
    as [elements|] eqn:Ht; [|done].
  simpl in Hcopy. injection Hcopy as <- <-. by exists elements.
Qed.

(** The re-resolved input reads, in a corresponding store, what the input
    reads in the original. *)
Lemma GetValue_transformed (t : ModelTransformer) (name name' : string)
    (elements elements' : PortElements) (σ σ' : Store ValueType) :
  TransformPortElements t elements = Some elements' →
  corresponds (portMap t) σ σ' →
  GetValue (mkInputPort name' elements') σ' = GetValue (mkInputPort name elements) σ.
Proof.
  intros Ht Hσ. unfold GetValue. simpl.
  apply TransformPortElements_lookup in Ht.
  induction Ht as [|e e' l l' [Hp Hi] _ IH]; [done|].
  assert (He : element_value σ' e' = element_value σ e).
  { unfold element_value. by rewrite (Hσ _ _ Hp), Hi. }
  simpl. by rewrite He, IH.
Qed.

(** X9. Copying a node and evaluating the copy simulates evaluating the
    original. When the store of the new model corresponds to the store of the
    original through the port map, and every image in the map belongs to a
    node added earlier, then whenever [Compute] of the original has a result,
    [Compute] of the copy has one too, and the two results correspond through
    the port map [Copy] leaves; the images of that map again belong to nodes
    added earlier. The property therefore carries over from node to node
    when a whole model is copied. *)
Theorem Copy_simulates (this newNode : ExtremalValueNode) (t t' : ModelTransformer)
    (σ σ1 σ' : Store ValueType) :
  Copy this t = Some (newNode, t') →
  images_below t →
  corresponds (portMap t) σ σ' →
  Compute this σ = Some σ1 →
  ∃ σ1', Compute newNode σ' = Some σ1'
    ∧ corresponds (portMap t') σ1 σ1'
    ∧ images_below t'.
Proof.
  intros HCopy Hbelow Hσ HC.
  destruct (Copy_eq _ _ _ _ HCopy) as (elements & Ht & -> & ->).
  pose proof (GetValue_transformed t (in_name (input this)) inputPortName
                _ _ σ σ' Ht Hσ) as HV.
  rewrite Compute_unfold in HC. rewrite Compute_unfold. cbn [input IsMaxNode].
  rewrite HV.
  replace (mkInputPort (in_name (input this)) (GetPortElements (input this)))
    with (input this) by by destruct (input this).
  destruct (GetValue (input this) σ) as [V|]; [|done]. simpl in HC. simpl.
  destruct (V !! _) as [v|]; [|done]. simpl in HC. injection HC as <-. simpl.
  eexists. split; [reflexivity|]. split.
  - intros p p' Hp. unfold val_id, argVal_id in *. cbn [portMap GetId] in *.
    rewrite lookup_insert in Hp. case_decide as Ha.
    { injection Hp as <-. subst p. by rewrite !lookup_insert_eq. }
    rewrite lookup_insert in Hp. case_decide as Hv.
    { injection Hp as <-. subst p.
      rewrite lookup_insert_ne by congruence. rewrite lookup_insert_eq.
      rewrite lookup_insert_ne by congruence. by rewrite lookup_insert_eq. }
    pose proof (Hbelow _ _ Hp) as Hlt.
    rewrite !lookup_insert_ne by (try congruence; intros <-; simpl in Hlt; lia).
    by apply Hσ.
  - intros p p' Hp. cbn [portMap nextId] in *.
    rewrite lookup_insert in Hp. case_decide; [injection Hp as <-; simpl; lia|].
    rewrite lookup_insert in Hp. case_decide; [injection Hp as <-; simpl; lia|].
    pose proof (Hbelow _ _ Hp). lia.
Qed.

Lemma contiguous_from_transformed (t : ModelTransformer) (p p' : PortId) :
  portMap t !! p = Some p' →
  ∀ (rest rest' : PortElements) (i : nat),
    TransformPortElements t rest = Some rest' →
    contiguous_from p i rest = true →
    contiguous_from p' i rest' = true.
Proof.
  intros Hp rest rest' i Ht. apply TransformPortElements_lookup in Ht.
  revert i. induction Ht as [|e e' l l' [He Hi] _ IH]; intros i; [done|].
  cbn [contiguous_from]. rewrite !andb_true_iff, !bool_decide_eq_true.
  intros [[Hport Hidx] Hrest]. split_and!.
  - rewrite Hport, Hp in He. by injection He.
  - congruence.
  - by apply IH.
Qed.

Lemma emits_loop_Compile (n : ExtremalValueNode) (compiler : IRMapCompiler) :
  emits_loop (Compile n compiler) = true →
  IsPureVector (input n) = true ∧ unrollLoops (GetCompilerOptions compiler) = false.
Proof.
  intros Hloop.
  destruct (decide (out_size (val n) = 1)) as [Hval|Hval];
    [destruct (decide (out_size (argVal n) = 1)) as [Harg|Harg]|].
  - unfold emits_loop in Hloop. rewrite (Compile_scalar _ _ _ Hval Harg) in Hloop.
    destruct (IsPureVector (input n)); simpl in Hloop.
    + destruct (unrollLoops (GetCompilerOptions compiler)); [|done].
      simpl in Hloop. fold (emits_loop (CompileExpanded n compiler)) in Hloop.
      by rewrite CompileExpanded_emits_no_loop in Hloop.
    + fold (emits_loop (CompileExpanded n compiler)) in Hloop.
      by rewrite CompileExpanded_emits_no_loop in Hloop.
  - unfold emits_loop, Compile, mbind, Emit_bind, emit_bind in Hloop.
    by rewrite (VerifyIsScalar_ok _ _ Hval), (VerifyIsScalar_throws _ _ Harg) in Hloop.
  - unfold emits_loop, Compile, mbind, Emit_bind, emit_bind in Hloop.
    by rewrite (VerifyIsScalar_throws _ _ Hval) in Hloop.
Qed.

(** X10. A copy compiles at least as well as its original. The copy has
    scalar output ports and an input of the size of the original's, also when
    the original's output ports are not scalar; a pure-vector input stays a
    pure vector; and whenever [Compile] emits a loop for the original, it
    emits a loop for the copy. *)
Theorem Copy_keeps_loop (this newNode : ExtremalValueNode) (t t' : ModelTransformer)
    (compiler : IRMapCompiler) :
  Copy this t = Some (newNode, t') →
  out_size (val newNode) = 1
  ∧ out_size (argVal newNode) = 1
  ∧ Size (input newNode) = Size (input this)
  ∧ (IsPureVector (input this) = true → IsPureVector (input newNode) = true)
  ∧ (emits_loop (Compile this compiler) = true →
     emits_loop (Compile newNode compiler) = true).
Proof.
  intros HCopy.
  destruct (Copy_eq _ _ _ _ HCopy) as (elements & Ht & -> & _).
  assert (Hpure : IsPureVector (input this) = true →
                  IsPureVector (mkInputPort inputPortName elements) = true).
  { unfold IsPureVector. cbn [GetPortElements].
    destruct (GetPortElements (input this)) as [|e0 rest]; [done|].
    simpl in Ht.
    destruct (portMap t !! ReferencedPort e0) as [p'|] eqn:Hp; [|done].
    simpl in Ht.
    destruct (TransformPortElements t rest) as [rest'|] eqn:Hrest; [|done].
    simpl in Ht. injection Ht as <-. cbn [ReferencedPort GetIndex].
    by apply (contiguous_from_transformed t (ReferencedPort e0) p' Hp rest). }
  cbn [val argVal input out_size]. split_and!; [done|done| |done|].
  - unfold Size. cbn [GetPortElements].
    apply TransformPortElements_lookup, Forall2_length in Ht. lia.
  - intros Hloop. apply emits_loop_Compile in Hloop as [Hp Hu].
    unfold emits_loop. rewrite Compile_scalar by done. cbn [input].
    rewrite (Hpure Hp), Hu. simpl.
    apply CompileLoop_emits_loop. cbn [input]. by apply Hpure.
Qed.

(** X11. Saving a node into the archive it was loaded from changes nothing:
    when [ReadFromArchive] succeeds, [WriteToArchive] of the node read,
    applied to the archive read, gives that archive back. The load keeps the
    identity and the variant of the node object it is applied to. *)
Theorem archive_read_write (archiver : Archive) (n n' : ExtremalValueNode) :
  ReadFromArchive archiver n = Some n' →
  WriteToArchive n' archiver = archiver
  ∧ GetId n' = GetId n
  ∧ IsMaxNode n' = IsMaxNode n.
Proof.
  unfold ReadFromArchive, Node_ReadFromArchive, read_InputPort, read_OutputPort.
  simpl.
  destruct (archiver !! inputPortName) as [[i|]|] eqn:Hi; try done. simpl.
  destruct (archiver !! valPortName) as [[|v]|] eqn:Hv; try done. simpl.
  destruct (archiver !! argValPortName) as [[|a]|] eqn:Ha; try done. simpl.
  intros [= <-]. split; [|done].
  unfold WriteToArchive, Node_WriteToArchive, write_field. simpl.
  apply map_eq. intros name. rewrite !lookup_insert.
  repeat case_decide; by subst.
Qed.

End CopyFurther.

Lemma Copy_simulates_witness :
  ∃ σ1' : Store Z,
    Compute copied_node copied_store = Some σ1'
    ∧ corresponds (portMap copied_transformer) tie_store_after σ1'
    ∧ images_below copied_transformer.
Proof.
  apply (Copy_simulates (ValueType := Z) (H0 := ell_names) (tie_node true)
           copied_node copy_transformer copied_transformer
           tie_store tie_store_after copied_store).
  - reflexivity.
  - intros p p' Hp. cbn [portMap copy_transformer] in Hp.
    apply lookup_singleton_Some in Hp as [<- <-]. simpl. lia.
  - intros p p' Hp. cbn [portMap copy_transformer] in Hp.
    apply lookup_singleton_Some in Hp as [<- <-]. reflexivity.
  - reflexivity.
Defined.

Lemma Copy_keeps_loop_witness :
  out_size (val copied_node) = 1
  ∧ out_size (argVal copied_node) = 1
  ∧ Size (input copied_node) = Size (input (tie_node true))
  ∧ (IsPureVector (input (tie_node true)) = true →
     IsPureVector (input copied_node) = true)
  ∧ (emits_loop (Compile (tie_node true) (mkIRMapCompiler (mkCompilerOptions false)))
     = true →
     emits_loop (Compile copied_node (mkIRMapCompiler (mkCompilerOptions false)))
     = true).
Proof.
  apply (Copy_keeps_loop (H0 := ell_names) (tie_node true) copied_node
           copy_transformer copied_transformer
           (mkIRMapCompiler (mkCompilerOptions false))).
  reflexivity.
Defined.

Lemma archive_read_write_witness :
  WriteToArchive (H := ell_names)
    (mkExtremalValueNode 12 true (mkInputPort "input" (port_range (7, 0) 0 4))
       (mkOutputPort "val" 1) (mkOutputPort "argVal" 1))
    (WriteToArchive (H := ell_names) (tie_node true) ∅)
  = WriteToArchive (H := ell_names) (tie_node true) ∅
  ∧ GetId (mkExtremalValueNode 12 true (mkInputPort "input" (port_range (7, 0) 0 4))
             (mkOutputPort "val" 1) (mkOutputPort "argVal" 1)) = 12
  ∧ IsMaxNode (mkExtremalValueNode 12 true
                 (mkInputPort "input" (port_range (7, 0) 0 4))
                 (mkOutputPort "val" 1) (mkOutputPort "argVal" 1)) = true.
Proof.
  apply (archive_read_write (H0 := ell_names)
           (WriteToArchive (H := ell_names) (tie_node true) ∅)
           (mkExtremalValueNode 12 true (mkInputPort "input" [])
              (mkOutputPort "val" 1) (mkOutputPort "argVal" 1))).
  reflexivity.
Defined.
